(** * Verification of the pixel transforms of task2.0.py

    The image buffer of the program is a numpy array of dtype uint8 and
    of three dimensions (height, width, channel).  It is modelled as a
    nested list of integers, rows of pixels of channels; that the
    elements are unsigned 8-bit values, and that the array is rectangular,
    are separate predicates ([valid_buffer], [has_shape]). *)

From Stdlib Require Import ZArith List Bool Ascii String.
From stdpp Require Import gmap strings list fin_maps.
Import ListNotations.

Local Open Scope string_scope.
Local Open Scope Z_scope.

(** ** Data model *)

Definition pixel := list Z.
Definition row := list pixel.
Definition buffer := list row.

(** The values of dtype uint8. *)
Definition is_uint8 (v : Z) : Prop := 0 <= v <= 255.

Definition valid_key (k : Z) : Prop := 0 <= k <= 255.

Definition valid_buffer (B : buffer) : Prop :=
  Forall (Forall (Forall is_uint8)) B.

(** A buffer of dimensions (H, W, C): H rows, each of W pixels, each of C
    channels. *)
Definition has_shape (H W C : nat) (B : buffer) : Prop :=
  length B = H /\
  Forall (fun r => length r = W /\ Forall (fun p : pixel => length p = C) r) B.

(** Indexing, [arr[i, j]] and [arr[i, j, c]] for indices within bounds. *)
Definition pixel_at (B : buffer) (i j : nat) : option pixel :=
  match nth_error B i with
  | Some r => nth_error r j
  | None => None
  end.

Definition elem_at (B : buffer) (i j c : nat) : option Z :=
  match pixel_at B i j with
  | Some p => nth_error p c
  | None => None
  end.

(** ** The two primitives *)

(** [arr[::-1, ::-1]]: the first axis reversed and the second axis
    reversed; the third axis is not sliced. *)
Definition swap_pixels (arr : buffer) : buffer :=
  rev (map (@rev pixel) arr).

(** [astype(np.uint8)] of an integer: reduction modulo 2^8. *)
Definition astype_uint8 (v : Z) : Z := v mod 256.

(** [np.bitwise_xor(arr, key).astype(np.uint8)], element by element. *)
Definition xor_pixels (arr : buffer) (key : Z) : buffer :=
  map (map (map (fun v => astype_uint8 (Z.lxor v key)))) arr.

(** ** The orchestrator *)

(** [mode in (...)] on strings. *)
Fixpoint str_in (s : string) (l : list string) : bool :=
  match l with
  | [] => false
  | x :: l' => String.eqb s x || str_in s l'
  end.

Definition encrypt_array (arr : buffer) (key : Z) (mode : string) : buffer :=
  let arr := if str_in mode ["math"; "both"] then xor_pixels arr key else arr in
  let arr := if str_in mode ["swap"; "both"] then swap_pixels arr else arr in
  arr.

Definition decrypt_array (arr : buffer) (key : Z) (mode : string) : buffer :=
  let arr := if str_in mode ["swap"; "both"] then swap_pixels arr else arr in
  let arr := if str_in mode ["math"; "both"] then xor_pixels arr key else arr in
  arr.

Definition valid_mode (m : string) : Prop :=
  m = "swap" \/ m = "math" \/ m = "both".

(** ** The command surface

    The image library and the builtin [int] are outside the program; the
    functions below take them as arguments:
    - [int_of_str value] is [int(value)], [None] when it raises
      [ValueError];
    - [decode content] is [np.array(Image.open(path).convert("RGB"))] on
      the content of the file, [None] when the library raises;
    - [save arr path fs] is [Image.fromarray(arr).save(path)], the flag
      telling whether it returned, with the file system it leaves. *)

Inductive fnode : Type :=
| RegularFile (content : list Z)
| Directory.

Abbreviation filesystem := (gmap string fnode).

(** [os.path.isfile]. *)
Definition isfile (fs : filesystem) (path : string) : bool :=
  match fs !! path with
  | Some (RegularFile _) => true
  | _ => false
  end.

Inductive exn : Type :=
| ValueError (msg : string)
| DecodeError
| EncodeError.

(** The errors [parse_args] reports: each prints the usage line and the
    message on standard error and exits with status 2. *)
Inductive usage_error : Type :=
| ArgumentError (arg msg : string)
| InvalidChoice (arg value : string)
| MissingArguments
| UnrecognizedArguments (extras : list string).

(** The two ways [parse_args] ends the program instead of returning:
    [parser.error], and the help action of the option -h/--help that
    [ArgumentParser] adds by default, which prints the help message on
    standard output and exits with status 0. *)
Inductive parser_exit : Type :=
| UsageExit (e : usage_error)
| HelpExit.

Inductive event : Type :=
| FsIsFile (path : string)
| FsOpen (path : string)
| FsSave (path : string)
| Stdout (line : string)
| StdoutHelp
| Stderr (e : usage_error).

Inductive outcome : Type :=
| Returned
| Exited (status : Z)
| Raised (e : exn).

(** The command line as argparse classifies it: positional arguments,
    the two options with their argument strings and the help option
    -h/--help, in the order given. *)
Inductive token : Type :=
| Positional (s : string)
| KeyOpt (value : string)
| ModeOpt (value : string)
| HelpOpt.

Record namespace : Type := Namespace {
  ns_operation : string;
  ns_input : string;
  ns_output : string;
  ns_key : Z;
  ns_mode : string
}.

(** State of the parsing loop: the positional arguments consumed so far,
    the values of the options (initially the defaults), the surplus. *)
Record pstate : Type := PState {
  ps_pos : list string;
  ps_key : Z;
  ps_mode : string;
  ps_extras : list string
}.

Definition ps_init : pstate :=
  {| ps_pos := []; ps_key := 123; ps_mode := "both"; ps_extras := [] |}.

(** ASCII letters for [str.capitalize]. *)
Definition upper (c : ascii) : ascii :=
  let n := nat_of_ascii c in
  if ((97 <=? n) && (n <=? 122))%nat then ascii_of_nat (n - 32) else c.

Definition lower (c : ascii) : ascii :=
  let n := nat_of_ascii c in
  if ((65 <=? n) && (n <=? 90))%nat then ascii_of_nat (n + 32) else c.

Fixpoint lower_all (s : string) : string :=
  match s with
  | EmptyString => EmptyString
  | String c s' => String (lower c) (lower_all s')
  end.

Definition capitalize (s : string) : string :=
  match s with
  | EmptyString => EmptyString
  | String c s' => String (upper c) (lower_all s')
  end.

(** The message of [positive_int]. *)
Definition key_message : string := "Key must be an integer between 0 and 255".

Section CommandSurface.

Variable int_of_str : string -> option Z.
Variable decode : list Z -> option buffer.
Variable save : buffer -> string -> filesystem -> bool * filesystem.

(** The [try] block of [positive_int]: [inl tt] stands for [ValueError],
    raised by [int] or by the range test. *)
Definition positive_int_try (value : string) : unit + Z :=
  match int_of_str value with
  | None => inl tt
  | Some ivalue =>
      if negb ((0 <=? ivalue) && (ivalue <=? 255)) then inl tt
      else inr ivalue
  end.

(** [positive_int]: [inl msg] is [argparse.ArgumentTypeError(msg)]. *)
Definition positive_int (value : string) : string + Z :=
  match positive_int_try value with
  | inl _ => inl key_message
  | inr ivalue => inr ivalue
  end.

(** A key argument that is not an integer, or is one outside [0,255]. *)
Definition key_value_invalid (value : string) : Prop :=
  int_of_str value = None \/
  exists v, int_of_str value = Some v /\ (v < 0 \/ 255 < v).

Fixpoint parse_loop (toks : list token) (st : pstate) : parser_exit + pstate :=
  match toks with
  | [] => inr st
  | Positional s :: rest =>
      match ps_pos st with
      | [] =>
          if str_in s ["encrypt"; "decrypt"]
          then parse_loop rest
                 {| ps_pos := [s]; ps_key := ps_key st;
                    ps_mode := ps_mode st; ps_extras := ps_extras st |}
          else inl (UsageExit (InvalidChoice "operation" s))
      | [_] | [_; _] =>
          parse_loop rest
            {| ps_pos := ps_pos st ++ [s]; ps_key := ps_key st;
               ps_mode := ps_mode st; ps_extras := ps_extras st |}
      | _ =>
          parse_loop rest
            {| ps_pos := ps_pos st; ps_key := ps_key st;
               ps_mode := ps_mode st; ps_extras := ps_extras st ++ [s] |}
      end
  | KeyOpt value :: rest =>
      match positive_int value with
      | inl msg => inl (UsageExit (ArgumentError "--key" msg))
      | inr k =>
          parse_loop rest
            {| ps_pos := ps_pos st; ps_key := k;
               ps_mode := ps_mode st; ps_extras := ps_extras st |}
      end
  | ModeOpt value :: rest =>
      if str_in value ["swap"; "math"; "both"]
      then parse_loop rest
             {| ps_pos := ps_pos st; ps_key := ps_key st;
                ps_mode := value; ps_extras := ps_extras st |}
      else inl (UsageExit (InvalidChoice "--mode" value))
  | HelpOpt :: _ => inl HelpExit
  end.

(** [parser.parse_args()] for the parser that [main] builds. *)
Definition parse_args (toks : list token) : parser_exit + namespace :=
  match parse_loop toks ps_init with
  | inl e => inl e
  | inr st =>
      match ps_pos st, ps_extras st with
      | [op; inp; out], [] =>
          inr {| ns_operation := op; ns_input := inp; ns_output := out;
                 ns_key := ps_key st; ns_mode := ps_mode st |}
      | [_; _; _], extras => inl (UsageExit (UnrecognizedArguments extras))
      | _, _ => inl (UsageExit MissingArguments)
      end
  end.

Definition image_open (fs : filesystem) (path : string) : option buffer :=
  match fs !! path with
  | Some (RegularFile content) => decode content
  | _ => None
  end.

Definition process_image (fs : filesystem) (input_path output_path : string)
    (key : Z) (mode operation : string) : outcome * filesystem * list event :=
  match image_open fs input_path with
  | None => (Raised DecodeError, fs, [FsOpen input_path])
  | Some arr =>
      let result :=
        if String.eqb operation "encrypt" then inr (encrypt_array arr key mode)
        else if String.eqb operation "decrypt" then inr (decrypt_array arr key mode)
        else inl (ValueError "operation must be 'encrypt' or 'decrypt'") in
      match result with
      | inl e => (Raised e, fs, [FsOpen input_path])
      | inr result_arr =>
          match save result_arr output_path fs with
          | (false, fs') =>
              (Raised EncodeError, fs', [FsOpen input_path; FsSave output_path])
          | (true, fs') =>
              (Returned, fs',
               [FsOpen input_path; FsSave output_path;
                Stdout (capitalize operation ++ "ed image saved to: " ++ output_path)])
          end
      end
  end.

Definition main (toks : list token) (fs : filesystem)
    : outcome * filesystem * list event :=
  match parse_args toks with
  | inl (UsageExit e) => (Exited 2, fs, [Stderr e])
  | inl HelpExit => (Exited 0, fs, [StdoutHelp])
  | inr args =>
      if negb (isfile fs (ns_input args))
      then (Returned, fs,
            [FsIsFile (ns_input args);
             Stdout ("Error: input file '" ++ ns_input args ++ "' does not exist.")])
      else
        let '(o, fs', tr) :=
          process_image fs (ns_input args) (ns_output args) (ns_key args)
            (ns_mode args) (ns_operation args) in
        (o, fs', FsIsFile (ns_input args) :: tr)
  end.

End CommandSurface.

(** [int] on strings of ASCII characters: surrounding white space (tab
    to carriage return, and space), an optional sign, decimal digits with
    single underscores between them.  Digits outside ASCII, which [int]
    also takes, are not covered. *)
Definition is_space (c : ascii) : bool :=
  let n := nat_of_ascii c in
  (((9 <=? n) && (n <=? 13)) || (n =? 32))%nat.

Definition digit_of (c : ascii) : option Z :=
  let n := nat_of_ascii c in
  if ((48 <=? n) && (n <=? 57))%nat then Some (Z.of_nat (n - 48)) else None.

Fixpoint lstrip (l : list ascii) : list ascii :=
  match l with
  | c :: l' => if is_space c then lstrip l' else l
  | [] => []
  end.

Definition strip (l : list ascii) : list ascii :=
  rev (lstrip (rev (lstrip l))).

(** [digits acc after_digit l]: [after_digit] tells whether the previous
    character was a digit, the only place where an underscore or the end
    may come. *)
Fixpoint digits (acc : Z) (after_digit : bool) (l : list ascii) : option Z :=
  match l with
  | [] => if after_digit then Some acc else None
  | c :: l' =>
      match digit_of c with
      | Some d => digits (10 * acc + d) true l'
      | None =>
          if Ascii.eqb c "_"%char && after_digit then digits acc false l'
          else None
      end
  end.

Definition int_ascii (value : string) : option Z :=
  match strip (list_ascii_of_string value) with
  | c :: l' =>
      if Ascii.eqb c "-"%char then option_map Z.opp (digits 0 false l')
      else if Ascii.eqb c "+"%char then digits 0 false l'
      else digits 0 false (c :: l')
  | [] => None
  end.

(** An image library that recognises no file and writes none, and three
    command lines, used to instantiate the theorems. *)
Definition no_decode (content : list Z) : option buffer := None.

Definition no_save (arr : buffer) (path : string) (fs : filesystem)
    : bool * filesystem := (false, fs).

Definition cmdline_key_256 : list token :=
  [Positional "encrypt"; Positional "in.png"; Positional "out.png"; KeyOpt "256"].

Definition cmdline_key_minus_1 : list token :=
  [Positional "decrypt"; KeyOpt "-1"; Positional "in.png"; Positional "out.png"].

Definition cmdline_help_key_256 : list token :=
  [HelpOpt; KeyOpt "256"].

Definition cmdline_no_key : list token :=
  [Positional "encrypt"; Positional "in.png"; Positional "out.png"; ModeOpt "swap"].

(** An image library for one-row images stored raw, three bytes a pixel,
    and a file system holding one such image. *)
Fixpoint raw_pixels (content : list Z) : option row :=
  match content with
  | [] => Some []
  | r :: g :: b :: content' => option_map (cons [r; g; b]) (raw_pixels content')
  | _ => None
  end.

Definition raw_decode (content : list Z) : option buffer :=
  option_map (fun r => [r]) (raw_pixels content).

Definition raw_save (arr : buffer) (path : string) (fs : filesystem)
    : bool * filesystem :=
  (true, <[path := RegularFile (concat (concat arr))]> fs).

Definition fs_input_only : filesystem :=
  {[ "in.raw" := RegularFile [0; 0; 0; 1; 2; 3] ]}.

(** A file system with an output file and no input file. *)
Definition fs_output_only : filesystem :=
  {[ "out.png" := RegularFile [1; 2; 3] ]}.

(** What the parsing loop keeps true of its state, and [parse_args] of
    the namespace it returns. *)
Definition is_operation (s : string) : Prop := s = "encrypt" \/ s = "decrypt".

Definition pstate_ok (st : pstate) : Prop :=
  valid_key (ps_key st) /\ valid_mode (ps_mode st) /\
  match ps_pos st with
  | [] => True
  | op :: _ => is_operation op
  end.

Definition namespace_ok (args : namespace) : Prop :=
  valid_key (ns_key args) /\ valid_mode (ns_mode args) /\
  is_operation (ns_operation args).

(** The word of the confirmation message. *)
Definition done_word (operation : string) : string :=
  if String.eqb operation "encrypt" then "Encrypted" else "Decrypted".

Definition cmdline_decrypt_raw : list token :=
  [Positional "decrypt"; Positional "in.raw"; Positional "out.raw"; KeyOpt "7"].

Definition args_decrypt_raw : namespace :=
  {| ns_operation := "decrypt"; ns_input := "in.raw"; ns_output := "out.raw";
     ns_key := 7; ns_mode := "both" |}.

(** The image of [fs_input_only], and the file system once its
    encryption with key 10 in mode both is saved. *)
Definition arr_input_only : buffer := [[[0; 0; 0]; [1; 2; 3]]].

Definition fs_with_mid : filesystem :=
  <["mid.raw" := RegularFile [11; 8; 9; 10; 10; 10]]> fs_input_only.

(** A file system whose input file is no image for [raw_decode]. *)
Definition fs_not_an_image : filesystem :=
  {[ "in.raw" := RegularFile [1; 2] ]}.

(** The pixels of a buffer in row-major order, [arr.reshape(-1, C)]. *)
Definition pixels (B : buffer) : list pixel := concat B.

(** A 3 x 3 x 3 buffer, with a centre pixel. *)
Definition sample_odd : buffer :=
  [[[1; 1; 1]; [2; 2; 2]; [3; 3; 3]];
   [[4; 4; 4]; [5; 6; 7]; [8; 8; 8]];
   [[9; 9; 9]; [10; 10; 10]; [11; 11; 11]]].

(** A 2 x 2 x 3 buffer with distinct pixels, used to instantiate the
    theorems. *)
Definition sample : buffer :=
  [[[1; 2; 3]; [40; 50; 60]]; [[7; 8; 9]; [100; 200; 255]]].

Example encrypt_math_zero :
  encrypt_array [[[0;0;0];[0;0;0]];[[0;0;0];[0;0;0]]] 10 "math"
  = [[[10;10;10];[10;10;10]];[[10;10;10];[10;10;10]]].
Proof. reflexivity. Qed.

Example encrypt_swap_corners :
  encrypt_array [[[1;1;1];[2;2;2]];[[3;3;3];[4;4;4]]] 7 "swap"
  = [[[4;4;4];[3;3;3]];[[2;2;2];[1;1;1]]].
Proof. reflexivity. Qed.

Example int_ascii_samples :
  int_ascii "256" = Some 256 /\ int_ascii "-1" = Some (-1) /\
  int_ascii " 1_0 " = Some 10 /\ int_ascii "+007" = Some 7 /\
  int_ascii "12.0" = None /\ int_ascii "abc" = None /\
  int_ascii "" = None /\ int_ascii "1__0" = None /\ int_ascii "_1" = None.
Proof. repeat split; reflexivity. Qed.

Example int_ascii_separator :
  int_ascii (String (ascii_of_nat 28) "5") = None /\
  int_ascii (String (ascii_of_nat 9) "5") = Some 5.
Proof. split; reflexivity. Qed.

Example main_help_first :
  main int_ascii raw_decode raw_save
    [Positional "encrypt"; HelpOpt; Positional "in.raw"; ModeOpt "flip"]
    fs_input_only
  = (Exited 0, fs_input_only, [StdoutHelp]).
Proof. reflexivity. Qed.

Example capitalize_samples :
  capitalize "encrypt" = "Encrypt" /\ capitalize "decrypt" = "Decrypt".
Proof. split; reflexivity. Qed.

Example main_encrypt_run :
  main int_ascii raw_decode raw_save
    [Positional "encrypt"; Positional "in.raw"; KeyOpt "10"; Positional "out.raw"]
    fs_input_only
  = (Returned,
     <["out.raw" := RegularFile [11; 8; 9; 10; 10; 10]]> fs_input_only,
     [FsIsFile "in.raw"; FsOpen "in.raw"; FsSave "out.raw";
      Stdout "Encrypted image saved to: out.raw"]).
Proof. vm_compute. reflexivity. Qed.

Example main_bad_mode :
  main int_ascii raw_decode raw_save
    [Positional "encrypt"; Positional "in.raw"; Positional "out.raw"; ModeOpt "flip"]
    fs_input_only
  = (Exited 2, fs_input_only, [Stderr (InvalidChoice "--mode" "flip")]).
Proof. reflexivity. Qed.

(** * Properties of the primitives *)

Section Primitives.

(** ** Values *)

Lemma astype_uint8_range (v : Z) : is_uint8 (astype_uint8 v).
Proof.
  unfold is_uint8, astype_uint8.
  pose proof (Z.mod_pos_bound v 256 eq_refl). lia.
Qed.

Lemma astype_uint8_id (v : Z) : is_uint8 v -> astype_uint8 v = v.
Proof.
  unfold is_uint8, astype_uint8. intros Hv. apply Z.mod_small. lia.
Qed.

(** Bit [i] of a value reduced to 8 bits. *)
Lemma astype_uint8_testbit (v i : Z) :
  Z.testbit (astype_uint8 v) i = (i <? 8) && Z.testbit v i.
Proof.
  unfold astype_uint8. change 256 with (2 ^ 8).
  apply Z.testbit_mod_pow2. lia.
Qed.

(** The xor of one element, applied twice, whatever the key. *)
Lemma xor_elem_twice (v key : Z) :
  is_uint8 v ->
  astype_uint8 (Z.lxor (astype_uint8 (Z.lxor v key)) key) = v.
Proof.
  intros Hv. rewrite <- (astype_uint8_id v Hv) at 2.
  apply Z.bits_inj'. intros i _.
  rewrite !astype_uint8_testbit, !Z.lxor_spec, astype_uint8_testbit, Z.lxor_spec.
  destruct (i <? 8), (Z.testbit v i), (Z.testbit key i); reflexivity.
Qed.

(** ** Reversal *)

Lemma swap_pixels_twice (B : buffer) : swap_pixels (swap_pixels B) = B.
Proof.
  unfold swap_pixels.
  rewrite map_rev, rev_involutive, map_map.
  rewrite <- (map_id B) at 2.
  apply map_ext. intros r. apply rev_involutive.
Qed.

Lemma swap_pixels_valid (B : buffer) :
  valid_buffer B -> valid_buffer (swap_pixels B).
Proof.
  unfold valid_buffer, swap_pixels. intros HB.
  apply Forall_rev, Forall_map.
  eapply List.Forall_impl; [| exact HB].
  intros r Hr. now apply Forall_rev.
Qed.

Lemma swap_pixels_shape (H W C : nat) (B : buffer) :
  has_shape H W C B -> has_shape H W C (swap_pixels B).
Proof.
  unfold has_shape, swap_pixels. intros [HH HB]. split.
  - now rewrite length_rev, length_map.
  - apply Forall_rev, Forall_map.
    eapply List.Forall_impl; [| exact HB].
    intros r [HW Hr]. split.
    + now rewrite length_rev.
    + now apply Forall_rev.
Qed.

(** The pixel of the reversed buffer at (i, j) is the pixel of the buffer
    at the mirrored position, itself untouched. *)
Lemma swap_pixels_pixel_at (H W C : nat) (B : buffer) (i j : nat) :
  has_shape H W C B -> (i < H)%nat -> (j < W)%nat ->
  exists p, pixel_at (swap_pixels B) i j = Some p /\
            pixel_at B (H - 1 - i) (W - 1 - j) = Some p /\
            length p = C.
Proof.
  intros [HH HB] Hi Hj. unfold pixel_at, swap_pixels.
  rewrite nth_error_rev, length_map.
  unfold buffer, row, pixel in *. rewrite HH.
  destruct (Nat.ltb_spec i H) as [_ | ?]; [| lia].
  rewrite nth_error_map.
  replace (H - S i)%nat with (H - 1 - i)%nat by lia.
  destruct (nth_error B (H - 1 - i)) as [r |] eqn:Er.
  - cbn [option_map].
    pose proof (proj1 (List.Forall_forall _ _) HB r (nth_error_In _ _ Er)) as [HW Hr].
    rewrite nth_error_rev, HW.
    destruct (Nat.ltb_spec j W) as [_ | ?]; [| lia].
    replace (W - S j)%nat with (W - 1 - j)%nat by lia.
    destruct (nth_error r (W - 1 - j)) as [p |] eqn:Ep.
    + exists p. repeat split.
      exact (proj1 (List.Forall_forall _ _) Hr p (nth_error_In _ _ Ep)).
    + apply nth_error_None in Ep. lia.
  - apply nth_error_None in Er. lia.
Qed.

(** ** Xor *)

Lemma xor_pixels_valid (B : buffer) (key : Z) : valid_buffer (xor_pixels B key).
Proof.
  unfold valid_buffer, xor_pixels.
  apply Forall_map, List.Forall_forall. intros r _.
  apply Forall_map, List.Forall_forall. intros p _.
  apply Forall_map, List.Forall_forall. intros v _.
  apply astype_uint8_range.
Qed.

Lemma xor_pixels_twice (B : buffer) (key : Z) :
  valid_buffer B -> xor_pixels (xor_pixels B key) key = B.
Proof.
  unfold valid_buffer, xor_pixels. intros HB.
  rewrite map_map. rewrite <- (map_id B) at 2.
  apply map_ext_Forall. eapply List.Forall_impl; [| exact HB].
  intros r Hr. rewrite map_map. rewrite <- (map_id r) at 2.
  apply map_ext_Forall. eapply List.Forall_impl; [| exact Hr].
  intros p Hp. rewrite map_map. rewrite <- (map_id p) at 2.
  apply map_ext_Forall. eapply List.Forall_impl; [| exact Hp].
  intros v Hv. now apply xor_elem_twice.
Qed.

Lemma xor_pixels_shape (H W C : nat) (B : buffer) (key : Z) :
  has_shape H W C B -> has_shape H W C (xor_pixels B key).
Proof.
  unfold has_shape, xor_pixels. intros [HH HB]. split.
  - now rewrite length_map.
  - apply Forall_map. eapply List.Forall_impl; [| exact HB].
    intros r [HW Hr]. split.
    + now rewrite length_map.
    + apply Forall_map. eapply List.Forall_impl; [| exact Hr].
      intros p Hp. now rewrite length_map.
Qed.

(** A uniform key: the xor of the reversed buffer is the reversed xor. *)
Lemma xor_swap_commute (B : buffer) (key : Z) :
  xor_pixels (swap_pixels B) key = swap_pixels (xor_pixels B key).
Proof.
  unfold xor_pixels, swap_pixels.
  rewrite map_rev, !map_map. f_equal.
  apply map_ext. intros r. now rewrite map_rev.
Qed.

End Primitives.

(** * Properties of the orchestrator *)

(** The orchestrator mode by mode. *)
Lemma encrypt_array_swap (B : buffer) (k : Z) :
  encrypt_array B k "swap" = swap_pixels B.
Proof. reflexivity. Qed.

Lemma encrypt_array_math (B : buffer) (k : Z) :
  encrypt_array B k "math" = xor_pixels B k.
Proof. reflexivity. Qed.

Lemma encrypt_array_both (B : buffer) (k : Z) :
  encrypt_array B k "both" = swap_pixels (xor_pixels B k).
Proof. reflexivity. Qed.

Lemma decrypt_array_swap (B : buffer) (k : Z) :
  decrypt_array B k "swap" = swap_pixels B.
Proof. reflexivity. Qed.

Lemma decrypt_array_math (B : buffer) (k : Z) :
  decrypt_array B k "math" = xor_pixels B k.
Proof. reflexivity. Qed.

Lemma decrypt_array_both (B : buffer) (k : Z) :
  decrypt_array B k "both" = xor_pixels (swap_pixels B) k.
Proof. reflexivity. Qed.

Ltac by_mode Hm :=
  destruct Hm as [-> | [-> | ->]];
  rewrite ?encrypt_array_swap, ?encrypt_array_math, ?encrypt_array_both,
    ?decrypt_array_swap, ?decrypt_array_math, ?decrypt_array_both.

Ltac uint8_buffer :=
  unfold valid_buffer; repeat constructor; unfold is_uint8; lia.

Ltac shaped_buffer :=
  unfold has_shape; repeat constructor.

(** C1 (round trip): for every buffer of unsigned 8-bit values, every key
    in [0,255] and every mode among swap, math and both, decrypting the
    encrypted buffer with the same key and mode gives back the buffer. *)
Theorem decrypt_encrypt_roundtrip (B : buffer) (k : Z) (m : string) :
  valid_buffer B -> valid_key k -> valid_mode m ->
  decrypt_array (encrypt_array B k m) k m = B.
Proof.
  intros HB _ Hm. by_mode Hm.
  - apply swap_pixels_twice.
  - now apply xor_pixels_twice.
  - rewrite swap_pixels_twice. now apply xor_pixels_twice.
Qed.

Lemma decrypt_encrypt_roundtrip_witness :
  valid_buffer sample /\ valid_key 123 /\ valid_mode "both" /\
  decrypt_array (encrypt_array sample 123 "both") 123 "both" = sample.
Proof.
  assert (HB : valid_buffer sample) by uint8_buffer.
  assert (Hk : valid_key 123) by (unfold valid_key; lia).
  assert (Hm : valid_mode "both") by (right; right; reflexivity).
  repeat (split; [assumption |]).
  exact (decrypt_encrypt_roundtrip sample 123 "both" HB Hk Hm).
Defined.

(** C2 (composition order for mode both): for every buffer and every key
    in [0,255], encrypt_array in mode both is swap_pixels after xor_pixels,
    and decrypt_array in mode both is xor_pixels after swap_pixels. *)
Theorem both_composition_order (B : buffer) (k : Z) :
  valid_key k ->
  encrypt_array B k "both" = swap_pixels (xor_pixels B k) /\
  decrypt_array B k "both" = xor_pixels (swap_pixels B) k.
Proof.
  intros _. split; reflexivity.
Qed.

Lemma both_composition_order_witness :
  valid_key 10 /\
  encrypt_array sample 10 "both" = swap_pixels (xor_pixels sample 10) /\
  decrypt_array sample 10 "both" = xor_pixels (swap_pixels sample) 10.
Proof.
  assert (Hk : valid_key 10) by (unfold valid_key; lia).
  split; [assumption |].
  exact (both_composition_order sample 10 Hk).
Defined.

(** C3 (reversal involution): swap_pixels applied twice to a buffer, in
    particular to a non-empty one, gives back the buffer. *)
Theorem swap_pixels_involution (B : buffer) :
  swap_pixels (swap_pixels B) = B.
Proof.
  apply swap_pixels_twice.
Qed.

(** C4 (xor involution): for every buffer of unsigned 8-bit values and
    every key in [0,255], xor_pixels applied twice with the key gives back
    the buffer. *)
Theorem xor_pixels_involution (B : buffer) (k : Z) :
  valid_buffer B -> valid_key k ->
  xor_pixels (xor_pixels B k) k = B.
Proof.
  intros HB _. now apply xor_pixels_twice.
Qed.

Lemma xor_pixels_involution_witness :
  valid_buffer sample /\ valid_key 255 /\
  xor_pixels (xor_pixels sample 255) 255 = sample.
Proof.
  assert (HB : valid_buffer sample) by uint8_buffer.
  assert (Hk : valid_key 255) by (unfold valid_key; lia).
  repeat (split; [assumption |]).
  exact (xor_pixels_involution sample 255 HB Hk).
Defined.

(** C5 (reversal semantics): for a non-empty buffer of dimensions
    (H, W, C), with C = 3 for an image, swap_pixels gives a buffer of the
    same dimensions whose pixel at (i, j) is the pixel of the input at
    (H-1-i, W-1-j) with its channels in the same order, so that its
    element at (i, j, c) is the input's at (H-1-i, W-1-j, c); its pixel at
    (0, 0) is the input's at (H-1, W-1). *)
Theorem swap_pixels_semantics (H W C : nat) (B : buffer) :
  has_shape H W C B -> (0 < H)%nat -> (0 < W)%nat ->
  has_shape H W C (swap_pixels B) /\
  (forall i j, (i < H)%nat -> (j < W)%nat ->
     exists p, pixel_at (swap_pixels B) i j = Some p /\
               pixel_at B (H - 1 - i) (W - 1 - j) = Some p) /\
  (forall i j c, (i < H)%nat -> (j < W)%nat -> (c < C)%nat ->
     exists v, elem_at (swap_pixels B) i j c = Some v /\
               elem_at B (H - 1 - i) (W - 1 - j) c = Some v) /\
  (exists p, pixel_at (swap_pixels B) 0 0 = Some p /\
             pixel_at B (H - 1) (W - 1) = Some p).
Proof.
  intros HB HH HW. split; [now apply swap_pixels_shape |]. repeat split.
  - intros i j Hi Hj.
    destruct (swap_pixels_pixel_at H W C B i j HB Hi Hj) as (p & Hs & Hp & _).
    now exists p.
  - intros i j c Hi Hj Hc.
    destruct (swap_pixels_pixel_at H W C B i j HB Hi Hj) as (p & Hs & Hp & Hl).
    unfold elem_at. rewrite Hs, Hp.
    destruct (nth_error p c) as [v |] eqn:Ev.
    + now exists v.
    + apply nth_error_None in Ev. lia.
  - destruct (swap_pixels_pixel_at H W C B 0 0 HB HH HW) as (p & Hs & Hp & _).
    rewrite !Nat.sub_0_r in Hp. now exists p.
Qed.

Lemma swap_pixels_semantics_witness :
  has_shape 2 2 3 sample /\ (0 < 2)%nat /\
  exists p, pixel_at (swap_pixels sample) 0 0 = Some p /\
            pixel_at sample (2 - 1) (2 - 1) = Some p.
Proof.
  assert (HB : has_shape 2 2 3 sample) by shaped_buffer.
  assert (H2 : (0 < 2)%nat) by lia.
  repeat (split; [assumption |]).
  exact (proj2 (proj2 (proj2 (swap_pixels_semantics 2 2 3 sample HB H2 H2)))).
Defined.

(** C6 (range invariant): for a buffer whose elements are in [0,255] and
    a key in [0,255], every element of the buffer returned by swap_pixels,
    by xor_pixels, and by encrypt_array and decrypt_array in any mode, is
    in [0,255]. *)
Theorem range_invariant (B : buffer) (k : Z) :
  valid_buffer B -> valid_key k ->
  valid_buffer (swap_pixels B) /\
  valid_buffer (xor_pixels B k) /\
  (forall m, valid_buffer (encrypt_array B k m)) /\
  (forall m, valid_buffer (decrypt_array B k m)).
Proof.
  intros HB _. repeat split.
  - now apply swap_pixels_valid.
  - apply xor_pixels_valid.
  - intros m. unfold encrypt_array.
    destruct (str_in m ["math"; "both"]), (str_in m ["swap"; "both"]);
      auto using swap_pixels_valid, xor_pixels_valid.
  - intros m. unfold decrypt_array.
    destruct (str_in m ["math"; "both"]), (str_in m ["swap"; "both"]);
      auto using swap_pixels_valid, xor_pixels_valid.
Qed.

Lemma range_invariant_witness :
  valid_buffer sample /\ valid_key 200 /\
  valid_buffer (encrypt_array sample 200 "both").
Proof.
  assert (HB : valid_buffer sample) by uint8_buffer.
  assert (Hk : valid_key 200) by (unfold valid_key; lia).
  repeat (split; [assumption |]).
  exact (proj1 (proj2 (proj2 (range_invariant sample 200 HB Hk))) "both").
Defined.

(** C9 (encrypt and decrypt agree): for every buffer, every key in
    [0,255] and every mode among swap, math and both, encrypt_array and
    decrypt_array return the same buffer, the xor with one key commuting
    with the reversal. *)
Theorem encrypt_decrypt_same (B : buffer) (k : Z) (m : string) :
  valid_key k -> valid_mode m ->
  encrypt_array B k m = decrypt_array B k m.
Proof.
  intros _ Hm. by_mode Hm; try reflexivity.
  symmetry. apply xor_swap_commute.
Qed.

Lemma encrypt_decrypt_same_witness :
  valid_key 123 /\ valid_mode "both" /\
  encrypt_array sample 123 "both" = decrypt_array sample 123 "both".
Proof.
  assert (Hk : valid_key 123) by (unfold valid_key; lia).
  assert (Hm : valid_mode "both") by (right; right; reflexivity).
  repeat (split; [assumption |]).
  exact (encrypt_decrypt_same sample 123 "both" Hk Hm).
Defined.

(** C10 (shape preservation): for a buffer of dimensions (H, W, C), every
    key in [0,255] and every mode among swap, math and both, the buffers
    returned by encrypt_array and by decrypt_array have dimensions
    (H, W, C). *)
Theorem shape_preservation (H W C : nat) (B : buffer) (k : Z) (m : string) :
  has_shape H W C B -> valid_key k -> valid_mode m ->
  has_shape H W C (encrypt_array B k m) /\
  has_shape H W C (decrypt_array B k m).
Proof.
  intros HB _ Hm.
  by_mode Hm; split;
    auto using swap_pixels_shape, xor_pixels_shape.
Qed.

Lemma shape_preservation_witness :
  has_shape 2 2 3 sample /\ valid_key 123 /\ valid_mode "both" /\
  has_shape 2 2 3 (encrypt_array sample 123 "both") /\
  has_shape 2 2 3 (decrypt_array sample 123 "both").
Proof.
  assert (HB : has_shape 2 2 3 sample) by shaped_buffer.
  assert (Hk : valid_key 123) by (unfold valid_key; lia).
  assert (Hm : valid_mode "both") by (right; right; reflexivity).
  split; [assumption |]. split; [assumption |]. split; [assumption |].
  exact (shape_preservation 2 2 3 sample 123 "both" HB Hk Hm).
Defined.

(** * Properties of the command surface *)

Section CommandSurfaceProperties.

Variable int_of_str : string -> option Z.
Variable decode : list Z -> option buffer.
Variable save : buffer -> string -> filesystem -> bool * filesystem.

Lemma positive_int_rejects (value : string) :
  key_value_invalid int_of_str value -> positive_int int_of_str value = inl key_message.
Proof.
  unfold positive_int, positive_int_try.
  intros [-> | (v & -> & Hv)]; [reflexivity |].
  destruct (Z.leb_spec 0 v), (Z.leb_spec v 255); cbn; (reflexivity || lia).
Qed.

Lemma positive_int_accepts (value : string) (k : Z) :
  positive_int int_of_str value = inr k <-> int_of_str value = Some k /\ 0 <= k <= 255.
Proof.
  unfold positive_int, positive_int_try.
  destruct (int_of_str value) as [v |]; [| split; [discriminate | intros [? _]; discriminate]].
  destruct (Z.leb_spec 0 v), (Z.leb_spec v 255); cbn; split;
    try discriminate; try (intros [[= ->] ?]; lia).
  - intros [= ->]. split; [reflexivity | lia].
  - now intros [[= ->] _].
Qed.

(** The loop on a command line in two parts. *)
Lemma parse_loop_app (pre rest : list token) :
  forall st,
  parse_loop int_of_str (pre ++ rest) st
  = match parse_loop int_of_str pre st with
    | inl x => inl x
    | inr st' => parse_loop int_of_str rest st'
    end.
Proof.
  induction pre as [| t pre IH]; intros st; [reflexivity |].
  destruct t as [s | v | v |]; cbn -[str_in].
  - destruct (ps_pos st) as [| ? [| ? [| ? ?]]]; try apply IH.
    destruct (str_in s ["encrypt"; "decrypt"]); [apply IH | reflexivity].
  - destruct (positive_int int_of_str v); [reflexivity | apply IH].
  - destruct (str_in v ["swap"; "math"; "both"]); [apply IH | reflexivity].
  - reflexivity.
Qed.

(** The help exit comes from a help option only. *)
Lemma parse_loop_help (toks : list token) :
  forall st, parse_loop int_of_str toks st = inl HelpExit -> In HelpOpt toks.
Proof.
  induction toks as [| t rest IH]; intros st Hp; [discriminate |].
  destruct t as [s | v | v |]; cbn -[str_in] in Hp; [| | | now left]; right.
  - destruct (ps_pos st) as [| ? [| ? [| ? ?]]]; try (eapply IH; exact Hp).
    destruct (str_in s ["encrypt"; "decrypt"]); [eapply IH; exact Hp | discriminate].
  - destruct (positive_int int_of_str v); [discriminate | eapply IH; exact Hp].
  - destruct (str_in v ["swap"; "math"; "both"]); [eapply IH; exact Hp | discriminate].
Qed.

(** The loop stops at the first argument that ends it: a refused key
    later in the command line leaves no way to a namespace. *)
Lemma parse_loop_refused_key (toks : list token) (value : string) :
  In (KeyOpt value) toks -> positive_int int_of_str value = inl key_message ->
  forall st, exists x, parse_loop int_of_str toks st = inl x.
Proof.
  intros Hin Hbad. induction toks as [| t rest IH]; [destruct Hin |].
  intros st. destruct Hin as [-> | Hin].
  - cbn. rewrite Hbad. eauto.
  - specialize (IH Hin). destruct t as [s | v | v |]; cbn -[str_in].
    + destruct (ps_pos st) as [| ? [| ? [| ? ?]]]; try apply IH.
      destruct (str_in s ["encrypt"; "decrypt"]); eauto.
    + destruct (positive_int int_of_str v); eauto.
    + destruct (str_in v ["swap"; "math"; "both"]); eauto.
    + eauto.
Qed.

(** With the arguments before it accepted, the refused key is what the
    parser reports. *)
Lemma parse_loop_reports_key (pre post : list token) (value : string) :
  positive_int int_of_str value = inl key_message ->
  forall st st', parse_loop int_of_str pre st = inr st' ->
  parse_loop int_of_str (pre ++ KeyOpt value :: post) st
  = inl (UsageExit (ArgumentError "--key" key_message)).
Proof.
  intros Hbad st st' Hpre.
  rewrite parse_loop_app, Hpre. cbn. now rewrite Hbad.
Qed.

(** Without a help option before it, the refused key ends the parser
    with a usage error: its own, or that of an earlier argument. *)
Lemma parse_loop_key_usage (pre post : list token) (value : string) :
  ~ In HelpOpt pre -> positive_int int_of_str value = inl key_message ->
  forall st, exists e,
    parse_loop int_of_str (pre ++ KeyOpt value :: post) st = inl (UsageExit e).
Proof.
  intros Hno Hbad st. rewrite parse_loop_app.
  destruct (parse_loop int_of_str pre st) as [[e |] | st'] eqn:Hpre.
  - eauto.
  - exfalso. apply Hno. exact (parse_loop_help pre st Hpre).
  - cbn. rewrite Hbad. eauto.
Qed.

Lemma parse_loop_keeps_key (toks : list token) :
  (forall v, ~ In (KeyOpt v) toks) ->
  forall st st', parse_loop int_of_str toks st = inr st' -> ps_key st' = ps_key st.
Proof.
  induction toks as [| t rest IH]; intros Hno st st' Hp.
  - cbn in Hp. now injection Hp as <-.
  - assert (Hrest : forall v, ~ In (KeyOpt v) rest)
      by (intros v Hv; apply (Hno v); now right).
    specialize (IH Hrest). destruct t as [s | v | v |]; cbn -[str_in] in Hp.
    + destruct (ps_pos st) as [| ? [| ? [| ? ?]]];
        try (apply IH in Hp; exact Hp).
      destruct (str_in s ["encrypt"; "decrypt"]); [| discriminate].
      apply IH in Hp. exact Hp.
    + exfalso. apply (Hno v). now left.
    + destruct (str_in v ["swap"; "math"; "both"]); [| discriminate].
      apply IH in Hp. exact Hp.
    + discriminate.
Qed.

Lemma parse_args_inr (toks : list token) (args : namespace) :
  parse_args int_of_str toks = inr args ->
  exists st, parse_loop int_of_str toks ps_init = inr st /\ ns_key args = ps_key st.
Proof.
  unfold parse_args.
  destruct (parse_loop int_of_str toks ps_init) as [e | st]; [discriminate |].
  intros Hp. exists st. split; [reflexivity |].
  destruct (ps_pos st) as [| ? [| ? [| ? [| ? ?]]]]; try discriminate.
  destruct (ps_extras st); [| discriminate].
  now injection Hp as <-.
Qed.

(** [main] when the parser ends the program. *)
Lemma main_parser_exit (toks : list token) (fs : filesystem) (x : parser_exit) :
  parse_loop int_of_str toks ps_init = inl x ->
  main int_of_str decode save toks fs
  = match x with
    | UsageExit e => (Exited 2, fs, [Stderr e])
    | HelpExit => (Exited 0, fs, [StdoutHelp])
    end.
Proof.
  intros Hx. unfold main, parse_args. rewrite Hx. now destruct x.
Qed.

(** C7 (key validation), as the code has it: a key argument that is not
    an integer, or is an integer outside [0,255], makes the program exit
    with no access to the file system, which is left as it was: with a
    usage error (status 2) when no -h/--help comes before it, and in
    general with a usage error or, a help option coming first, with the
    help message and status 0; when the arguments before it are all
    accepted the error is the one of positive_int for --key.  Without
    --key the key is 123. *)
Theorem key_validation :
  (forall pre post fs value,
     ~ In HelpOpt pre -> key_value_invalid int_of_str value ->
     exists e, main int_of_str decode save (pre ++ KeyOpt value :: post) fs
               = (Exited 2, fs, [Stderr e])) /\
  (forall toks fs value,
     In (KeyOpt value) toks -> key_value_invalid int_of_str value ->
     (exists e, main int_of_str decode save toks fs = (Exited 2, fs, [Stderr e])) \/
     main int_of_str decode save toks fs = (Exited 0, fs, [StdoutHelp])) /\
  (forall pre post st fs value,
     parse_loop int_of_str pre ps_init = inr st ->
     key_value_invalid int_of_str value ->
     main int_of_str decode save (pre ++ KeyOpt value :: post) fs
     = (Exited 2, fs, [Stderr (ArgumentError "--key" key_message)])) /\
  (forall toks args,
     (forall v, ~ In (KeyOpt v) toks) -> parse_args int_of_str toks = inr args ->
     ns_key args = 123).
Proof.
  split; [| split; [| split]].
  - intros pre post fs value Hno Hbad.
    apply positive_int_rejects in Hbad.
    destruct (parse_loop_key_usage pre post value Hno Hbad ps_init) as [e He].
    exists e. now rewrite (main_parser_exit _ fs _ He).
  - intros toks fs value Hin Hbad.
    apply positive_int_rejects in Hbad.
    destruct (parse_loop_refused_key toks value Hin Hbad ps_init) as [x Hx].
    rewrite (main_parser_exit _ fs _ Hx). destruct x as [e |]; eauto.
  - intros pre post st fs value Hpre Hbad.
    apply positive_int_rejects in Hbad.
    now rewrite (main_parser_exit _ fs _
                   (parse_loop_reports_key pre post value Hbad ps_init st Hpre)).
  - intros toks args Hno Hargs.
    destruct (parse_args_inr toks args Hargs) as (st & Hst & ->).
    exact (parse_loop_keeps_key toks Hno ps_init st Hst).
Qed.

(** C8 (missing input file): when the input path of an invocation, the
    one in the namespace parse_args returns for it, does not name an
    existing regular file, main prints the error message and returns:
    nothing is opened, transformed or saved, and the file system is left
    as it was. *)
Theorem missing_input_file (toks : list token) (fs : filesystem)
    (args : namespace) :
  parse_args int_of_str toks = inr args ->
  isfile fs (ns_input args) = false ->
  main int_of_str decode save toks fs
  = (Returned, fs,
     [FsIsFile (ns_input args);
      Stdout ("Error: input file '" ++ ns_input args ++ "' does not exist.")]).
Proof.
  intros Hargs Hfile. unfold main. now rewrite Hargs, Hfile.
Qed.

End CommandSurfaceProperties.

Lemma key_validation_witness :
  (~ In HelpOpt [Positional "encrypt"; Positional "in.png"; Positional "out.png"] /\
   key_value_invalid int_ascii "256" /\
   exists e, main int_ascii no_decode no_save cmdline_key_256 fs_output_only
             = (Exited 2, fs_output_only, [Stderr e])) /\
  (In (KeyOpt "256") cmdline_help_key_256 /\
   ((exists e, main int_ascii no_decode no_save cmdline_help_key_256 fs_output_only
               = (Exited 2, fs_output_only, [Stderr e])) \/
    main int_ascii no_decode no_save cmdline_help_key_256 fs_output_only
    = (Exited 0, fs_output_only, [StdoutHelp]))) /\
  (parse_loop int_ascii [Positional "decrypt"] ps_init
   = inr {| ps_pos := ["decrypt"]; ps_key := 123; ps_mode := "both";
            ps_extras := [] |} /\
   key_value_invalid int_ascii "-1" /\
   main int_ascii no_decode no_save cmdline_key_minus_1 fs_output_only
   = (Exited 2, fs_output_only, [Stderr (ArgumentError "--key" key_message)])) /\
  ((forall v, ~ In (KeyOpt v) cmdline_no_key) /\
   parse_args int_ascii cmdline_no_key
   = inr {| ns_operation := "encrypt"; ns_input := "in.png";
            ns_output := "out.png"; ns_key := 123; ns_mode := "swap" |} /\
   ns_key {| ns_operation := "encrypt"; ns_input := "in.png";
             ns_output := "out.png"; ns_key := 123; ns_mode := "swap" |} = 123).
Proof.
  pose proof (key_validation int_ascii no_decode no_save)
    as (Hnohelp & Hany & Hfirst & Hdefault).
  assert (H256 : key_value_invalid int_ascii "256")
    by (right; exists 256; split; [reflexivity | lia]).
  assert (Hm1 : key_value_invalid int_ascii "-1")
    by (right; exists (-1); split; [reflexivity | lia]).
  assert (Hpre : ~ In HelpOpt
                   [Positional "encrypt"; Positional "in.png"; Positional "out.png"])
    by (intros [H | [H | [H | []]]]; discriminate H).
  assert (Hin : In (KeyOpt "256") cmdline_help_key_256)
    by (cbn; tauto).
  assert (Hno : forall v, ~ In (KeyOpt v) cmdline_no_key)
    by (intros v [H | [H | [H | [H | []]]]]; discriminate H).
  split; [| split; [| split]].
  - split; [exact Hpre |]. split; [exact H256 |].
    exact (Hnohelp [Positional "encrypt"; Positional "in.png"; Positional "out.png"]
             [] fs_output_only "256" Hpre H256).
  - split; [exact Hin |].
    exact (Hany cmdline_help_key_256 fs_output_only "256" Hin H256).
  - split; [reflexivity |]. split; [exact Hm1 |].
    exact (Hfirst [Positional "decrypt"]
             [Positional "in.png"; Positional "out.png"] _ fs_output_only "-1"
             eq_refl Hm1).
  - split; [exact Hno |]. split; [reflexivity |].
    exact (Hdefault cmdline_no_key _ Hno eq_refl).
Defined.

(** C7 as stated fails with -h before the key: on the command line
    [-h --key 256] the key 256 is outside [0,255], and the program prints
    the help message and exits with status 0, not with a usage error. *)
Lemma key_validation_counterexample :
  In (KeyOpt "256") cmdline_help_key_256 /\
  key_value_invalid int_ascii "256" /\
  main int_ascii no_decode no_save cmdline_help_key_256 fs_output_only
  = (Exited 0, fs_output_only, [StdoutHelp]) /\
  ~ (exists e, main int_ascii no_decode no_save cmdline_help_key_256 fs_output_only
               = (Exited 2, fs_output_only, [Stderr e])).
Proof.
  split; [cbn; tauto |].
  split; [right; exists 256; split; [reflexivity | lia] |].
  split; [reflexivity |].
  intros [e He]. discriminate He.
Qed.

Lemma missing_input_file_witness :
  parse_args int_ascii cmdline_no_key
  = inr {| ns_operation := "encrypt"; ns_input := "in.png";
           ns_output := "out.png"; ns_key := 123; ns_mode := "swap" |} /\
  isfile fs_output_only "in.png" = false /\
  main int_ascii no_decode no_save cmdline_no_key fs_output_only
  = (Returned, fs_output_only,
     [FsIsFile "in.png";
      Stdout "Error: input file 'in.png' does not exist."]).
Proof.
  split; [reflexivity |]. split; [reflexivity |].
  exact (missing_input_file int_ascii no_decode no_save cmdline_no_key
           fs_output_only _ eq_refl eq_refl).
Defined.

(** * Further properties of the primitives *)

Section PrimitiveValues.

Lemma uint8_testbit_high (v i : Z) :
  0 <= v <= 255 -> 8 <= i -> Z.testbit v i = false.
Proof.
  intros Hv Hi. rewrite <- (Z.mod_small v (2 ^ 8)) by (change (2 ^ 8) with 256; lia).
  apply Z.mod_pow2_bits_high. lia.
Qed.

(** The xor of two 8-bit values is an 8-bit value: the cast changes
    nothing. *)
Lemma astype_uint8_lxor (v key : Z) :
  is_uint8 v -> valid_key key ->
  astype_uint8 (Z.lxor v key) = Z.lxor v key.
Proof.
  intros Hv Hk. apply Z.bits_inj'. intros i Hi.
  rewrite astype_uint8_testbit, Z.lxor_spec.
  destruct (Z.ltb_spec i 8) as [_ | Hge]; [reflexivity |].
  now rewrite (uint8_testbit_high v i Hv Hge), (uint8_testbit_high key i Hk Hge).
Qed.

Lemma lxor_uint8 (v key : Z) :
  is_uint8 v -> valid_key key -> is_uint8 (Z.lxor v key).
Proof.
  intros Hv Hk. rewrite <- (astype_uint8_lxor v key Hv Hk).
  apply astype_uint8_range.
Qed.

Lemma lxor_255 (v : Z) : is_uint8 v -> Z.lxor v 255 = 255 - v.
Proof.
  intros Hv.
  assert (Hland : Z.land v (Z.lxor v 255) = 0).
  { apply Z.bits_inj'. intros i Hi.
    rewrite Z.land_spec, Z.lxor_spec, Z.bits_0.
    destruct (Z.ltb_spec i 8) as [Hlt | Hge].
    - change 255 with (Z.ones 8). rewrite Z.ones_spec_low by lia.
      now destruct (Z.testbit v i).
    - now rewrite (uint8_testbit_high v i Hv Hge). }
  apply Z.add_nocarry_lxor in Hland.
  rewrite <- Z.lxor_assoc, Z.lxor_nilpotent, Z.lxor_0_l in Hland. lia.
Qed.

(** Two keys in a row act as their xor. *)
Lemma xor_elem_compose (v k1 k2 : Z) :
  astype_uint8 (Z.lxor (astype_uint8 (Z.lxor v k1)) k2)
  = astype_uint8 (Z.lxor v (Z.lxor k1 k2)).
Proof.
  apply Z.bits_inj'. intros i _.
  rewrite !astype_uint8_testbit, !Z.lxor_spec, astype_uint8_testbit, Z.lxor_spec.
  destruct (i <? 8), (Z.testbit v i), (Z.testbit k1 i), (Z.testbit k2 i);
    reflexivity.
Qed.

Lemma lxor_fixed_point (v key : Z) : Z.lxor v key = v -> key = 0.
Proof.
  intros Hfix.
  assert (H0 : Z.lxor (Z.lxor v key) v = 0)
    by (rewrite Hfix; apply Z.lxor_nilpotent).
  now rewrite (Z.lxor_comm v key), Z.lxor_assoc, Z.lxor_nilpotent, Z.lxor_0_r in H0.
Qed.

End PrimitiveValues.

Section PrimitiveBuffers.

Lemma elem_at_map3 (f : Z -> Z) (B : buffer) (i j c : nat) :
  elem_at (map (map (map f)) B) i j c = option_map f (elem_at B i j c).
Proof.
  unfold elem_at, pixel_at, buffer, row, pixel in *. rewrite nth_error_map.
  destruct (nth_error B i) as [r |]; [cbn | reflexivity].
  rewrite nth_error_map.
  destruct (nth_error r j) as [p |]; [cbn | reflexivity].
  apply nth_error_map.
Qed.

Lemma elem_at_valid (B : buffer) (i j c : nat) (v : Z) :
  valid_buffer B -> elem_at B i j c = Some v -> is_uint8 v.
Proof.
  unfold valid_buffer, elem_at, pixel_at. intros HB Hv.
  destruct (nth_error B i) as [r |] eqn:Er; [| discriminate].
  destruct (nth_error r j) as [p |] eqn:Ep; [| discriminate].
  pose proof (proj1 (List.Forall_forall _ _) HB r (nth_error_In _ _ Er)) as Hr.
  pose proof (proj1 (List.Forall_forall _ _) Hr p (nth_error_In _ _ Ep)) as Hp.
  exact (proj1 (List.Forall_forall _ _) Hp v (nth_error_In _ _ Hv)).
Qed.

(** Two element-wise maps that agree on 8-bit values agree on a buffer
    of 8-bit values. *)
Lemma map3_ext_valid (f g : Z -> Z) (B : buffer) :
  (forall v, is_uint8 v -> f v = g v) -> valid_buffer B ->
  map (map (map f)) B = map (map (map g)) B.
Proof.
  unfold valid_buffer. intros Hfg HB.
  apply map_ext_Forall. eapply List.Forall_impl; [| exact HB].
  intros r Hr. apply map_ext_Forall. eapply List.Forall_impl; [| exact Hr].
  intros p Hp. apply map_ext_Forall. eapply List.Forall_impl; [| exact Hp].
  exact Hfg.
Qed.

Lemma map3_id (B : buffer) : map (map (map (fun v : Z => v))) B = B.
Proof.
  rewrite <- (map_id B) at 2. apply map_ext. intros r.
  rewrite <- (map_id r) at 2. apply map_ext. intros p.
  apply map_id.
Qed.

(** Reversing both axes reverses the row-major sequence of pixels. *)
Lemma pixels_swap_pixels (B : buffer) :
  pixels (swap_pixels B) = rev (pixels B).
Proof.
  unfold pixels, swap_pixels. induction B as [| r B IH]; [reflexivity |].
  cbn [map rev concat]. rewrite concat_app, IH. cbn [concat].
  now rewrite app_nil_r, rev_app_distr.
Qed.

End PrimitiveBuffers.

(** X1 (xor, element by element): for a buffer of 8-bit values and a key
    in [0,255], the cast of xor_pixels changes nothing: the element at
    each position of the result is the xor with the key of the element of
    the input at that position. *)
Theorem xor_pixels_elementwise (B : buffer) (k : Z) :
  valid_buffer B -> valid_key k ->
  xor_pixels B k = map (map (map (fun v => Z.lxor v k))) B /\
  forall i j c,
    elem_at (xor_pixels B k) i j c
    = option_map (fun v => Z.lxor v k) (elem_at B i j c).
Proof.
  intros HB Hk.
  assert (Heq : xor_pixels B k = map (map (map (fun v => Z.lxor v k))) B).
  { unfold xor_pixels. apply map3_ext_valid; [| exact HB].
    intros v Hv. now apply astype_uint8_lxor. }
  split; [exact Heq |].
  intros i j c. rewrite Heq. apply elem_at_map3.
Qed.

Lemma xor_pixels_elementwise_witness :
  valid_buffer sample /\ valid_key 10 /\
  elem_at (xor_pixels sample 10) 1 1 2
  = option_map (fun v => Z.lxor v 10) (elem_at sample 1 1 2).
Proof.
  assert (HB : valid_buffer sample) by uint8_buffer.
  assert (Hk : valid_key 10) by (unfold valid_key; lia).
  repeat (split; [assumption |]).
  exact (proj2 (xor_pixels_elementwise sample 10 HB Hk) 1%nat 1%nat 2%nat).
Defined.

(** X2 (key 0): xor_pixels with key 0 returns a buffer of 8-bit values
    unchanged. *)
Theorem xor_pixels_key_zero (B : buffer) :
  valid_buffer B -> xor_pixels B 0 = B.
Proof.
  intros HB. rewrite <- (map3_id B) at 2.
  unfold xor_pixels. apply map3_ext_valid; [| exact HB].
  intros v Hv. rewrite Z.lxor_0_r. now apply astype_uint8_id.
Qed.

Lemma xor_pixels_key_zero_witness :
  valid_buffer sample /\ xor_pixels sample 0 = sample.
Proof.
  assert (HB : valid_buffer sample) by uint8_buffer.
  split; [assumption |].
  exact (xor_pixels_key_zero sample HB).
Defined.

(** X3 (key 255): xor_pixels with key 255 replaces every element v of a
    buffer of 8-bit values by 255 - v. *)
Theorem xor_pixels_key_255 (B : buffer) :
  valid_buffer B ->
  xor_pixels B 255 = map (map (map (fun v => 255 - v))) B.
Proof.
  intros HB. unfold xor_pixels. apply map3_ext_valid; [| exact HB].
  intros v Hv. rewrite astype_uint8_lxor.
  - now apply lxor_255.
  - exact Hv.
  - unfold valid_key. lia.
Qed.

Lemma xor_pixels_key_255_witness :
  valid_buffer sample /\
  xor_pixels sample 255 = map (map (map (fun v => 255 - v))) sample.
Proof.
  assert (HB : valid_buffer sample) by uint8_buffer.
  split; [assumption |].
  exact (xor_pixels_key_255 sample HB).
Defined.

(** X4 (two keys): for keys k1 and k2 in [0,255], xor_pixels with k1 and
    then with k2 is xor_pixels with the one key k1 xor k2, itself in
    [0,255]. *)
Theorem xor_pixels_keys_compose (B : buffer) (k1 k2 : Z) :
  valid_key k1 -> valid_key k2 ->
  valid_key (Z.lxor k1 k2) /\
  xor_pixels (xor_pixels B k1) k2 = xor_pixels B (Z.lxor k1 k2).
Proof.
  intros Hk1 Hk2. split.
  - exact (lxor_uint8 k1 k2 Hk1 Hk2).
  - unfold xor_pixels. rewrite map_map. apply map_ext. intros r.
    rewrite map_map. apply map_ext. intros p.
    rewrite map_map. apply map_ext. intros v.
    apply xor_elem_compose.
Qed.

Lemma xor_pixels_keys_compose_witness :
  valid_key 123 /\ valid_key 45 /\
  valid_key (Z.lxor 123 45) /\
  xor_pixels (xor_pixels sample 123) 45 = xor_pixels sample (Z.lxor 123 45).
Proof.
  assert (Hk1 : valid_key 123) by (unfold valid_key; lia).
  assert (Hk2 : valid_key 45) by (unfold valid_key; lia).
  split; [exact Hk1 |]. split; [exact Hk2 |].
  exact (xor_pixels_keys_compose sample 123 45 Hk1 Hk2).
Defined.

(** X5 (no element survives a non-zero key): for a buffer of 8-bit values
    and a key in [1,255], every element of the result of xor_pixels
    differs from the element of the input at the same position. *)
Theorem xor_pixels_changes_every_element (B : buffer) (k : Z) (i j c : nat) (v : Z) :
  valid_buffer B -> valid_key k -> k <> 0 ->
  elem_at B i j c = Some v ->
  exists v', elem_at (xor_pixels B k) i j c = Some v' /\ v' <> v.
Proof.
  intros HB Hk Hnz Hv.
  exists (Z.lxor v k). split.
  - unfold xor_pixels. rewrite elem_at_map3, Hv. cbn.
    f_equal. apply astype_uint8_lxor; [| exact Hk].
    exact (elem_at_valid B i j c v HB Hv).
  - intros Hfix. apply Hnz. exact (lxor_fixed_point v k Hfix).
Qed.

Lemma xor_pixels_changes_every_element_witness :
  valid_buffer sample /\ valid_key 1 /\ 1 <> 0 /\
  elem_at sample 0 1 2 = Some 60 /\
  exists v', elem_at (xor_pixels sample 1) 0 1 2 = Some v' /\ v' <> 60.
Proof.
  assert (HB : valid_buffer sample) by uint8_buffer.
  assert (Hk : valid_key 1) by (unfold valid_key; lia).
  assert (Hnz : 1 <> 0) by lia.
  assert (Hv : elem_at sample 0 1 2 = Some 60) by reflexivity.
  repeat (split; [assumption |]).
  exact (xor_pixels_changes_every_element sample 1 0 1 2 60 HB Hk Hnz Hv).
Defined.

(** X6 (reversal of the pixel sequence): the pixels of swap_pixels B in
    row-major order are the pixels of B in reverse order, each pixel
    itself untouched; so they are a permutation of the pixels of B. *)
Theorem swap_pixels_reverses_pixels (B : buffer) :
  pixels (swap_pixels B) = rev (pixels B) /\
  Permutation (pixels (swap_pixels B)) (pixels B).
Proof.
  split; [apply pixels_swap_pixels |].
  rewrite pixels_swap_pixels. symmetry. apply Permutation_rev.
Qed.

(** X7 (centre pixel): in a buffer with an odd number 2a+1 of rows and an
    odd number 2b+1 of columns, swap_pixels leaves the centre pixel
    (a, b) where it is. *)
Theorem swap_pixels_centre_fixed (a b C : nat) (B : buffer) :
  has_shape (2 * a + 1) (2 * b + 1) C B ->
  exists p, pixel_at (swap_pixels B) a b = Some p /\ pixel_at B a b = Some p.
Proof.
  intros HB.
  destruct (swap_pixels_pixel_at (2 * a + 1) (2 * b + 1) C B a b HB)
    as (p & Hs & Hp & _); [lia | lia |].
  replace (2 * a + 1 - 1 - a)%nat with a in Hp by lia.
  replace (2 * b + 1 - 1 - b)%nat with b in Hp by lia.
  now exists p.
Qed.

Lemma swap_pixels_centre_fixed_witness :
  has_shape (2 * 1 + 1) (2 * 1 + 1) 3 sample_odd /\
  exists p, pixel_at (swap_pixels sample_odd) 1 1 = Some p /\
            pixel_at sample_odd 1 1 = Some p.
Proof.
  assert (HB : has_shape (2 * 1 + 1) (2 * 1 + 1) 3 sample_odd) by shaped_buffer.
  split; [assumption |].
  exact (swap_pixels_centre_fixed 1 1 3 sample_odd HB).
Defined.

(** * Further properties of the orchestrator *)

Lemma xor_pixels_compose (B : buffer) (k1 k2 : Z) :
  xor_pixels (xor_pixels B k1) k2 = xor_pixels B (Z.lxor k1 k2).
Proof.
  unfold xor_pixels. rewrite map_map. apply map_ext. intros r.
  rewrite map_map. apply map_ext. intros p.
  rewrite map_map. apply map_ext. intros v.
  apply xor_elem_compose.
Qed.

(** In the modes that use the key, decrypting with a second key leaves
    the xor with both keys. *)
Lemma decrypt_encrypt_two_keys (B : buffer) (k k' : Z) (m : string) :
  m = "math" \/ m = "both" ->
  decrypt_array (encrypt_array B k m) k' m = xor_pixels B (Z.lxor k k').
Proof.
  intros [-> | ->].
  - rewrite encrypt_array_math, decrypt_array_math. apply xor_pixels_compose.
  - rewrite encrypt_array_both, decrypt_array_both, swap_pixels_twice.
    apply xor_pixels_compose.
Qed.

Lemma str_in_not (m : string) (l : list string) :
  Forall (fun x => m <> x) l -> str_in m l = false.
Proof.
  induction 1 as [| x l Hx _ IH]; [reflexivity |].
  cbn. rewrite IH. now apply String.eqb_neq in Hx as ->.
Qed.

(** X8 (each direction is its own inverse): for a buffer of 8-bit values,
    a key in [0,255] and a mode among swap, math and both, encrypt_array
    applied twice gives back the buffer, and so does decrypt_array. *)
Theorem encrypt_array_twice (B : buffer) (k : Z) (m : string) :
  valid_buffer B -> valid_key k -> valid_mode m ->
  encrypt_array (encrypt_array B k m) k m = B /\
  decrypt_array (decrypt_array B k m) k m = B.
Proof.
  intros HB _ Hm. by_mode Hm; split.
  - apply swap_pixels_twice.
  - apply swap_pixels_twice.
  - now apply xor_pixels_twice.
  - now apply xor_pixels_twice.
  - rewrite (xor_swap_commute (xor_pixels B k) k), swap_pixels_twice.
    now apply xor_pixels_twice.
  - rewrite (xor_swap_commute B k), swap_pixels_twice.
    now apply xor_pixels_twice.
Qed.

Lemma encrypt_array_twice_witness :
  valid_buffer sample /\ valid_key 123 /\ valid_mode "both" /\
  encrypt_array (encrypt_array sample 123 "both") 123 "both" = sample /\
  decrypt_array (decrypt_array sample 123 "both") 123 "both" = sample.
Proof.
  assert (HB : valid_buffer sample) by uint8_buffer.
  assert (Hk : valid_key 123) by (unfold valid_key; lia).
  assert (Hm : valid_mode "both") by (right; right; reflexivity).
  split; [exact HB |]. split; [exact Hk |]. split; [exact Hm |].
  exact (encrypt_array_twice sample 123 "both" HB Hk Hm).
Defined.

(** X9 (only the key decrypts): in mode math or both, for a buffer of
    8-bit values with at least one element and keys k and k' in [0,255],
    decrypt_array with k' gives back what encrypt_array with k was given
    exactly when k' = k. *)
Theorem decrypt_needs_the_key (B : buffer) (k k' : Z) (m : string)
    (i j c : nat) (v : Z) :
  valid_buffer B -> valid_key k -> valid_key k' ->
  m = "math" \/ m = "both" ->
  elem_at B i j c = Some v ->
  (decrypt_array (encrypt_array B k m) k' m = B <-> k' = k).
Proof.
  intros HB Hk Hk' Hm Hv.
  rewrite (decrypt_encrypt_two_keys B k k' m Hm). split.
  - intros Heq.
    assert (He : elem_at (xor_pixels B (Z.lxor k k')) i j c = Some v)
      by now rewrite Heq.
    unfold xor_pixels in He. rewrite elem_at_map3, Hv in He. cbn in He.
    injection He as He.
    rewrite astype_uint8_lxor in He.
    + apply lxor_fixed_point in He. symmetry. now apply Z.lxor_eq.
    + exact (elem_at_valid B i j c v HB Hv).
    + exact (lxor_uint8 k k' Hk Hk').
  - intros ->. rewrite Z.lxor_nilpotent.
    rewrite <- (map3_id B) at 2. unfold xor_pixels.
    apply map3_ext_valid; [| exact HB].
    intros w Hw. rewrite Z.lxor_0_r. now apply astype_uint8_id.
Qed.

Lemma decrypt_needs_the_key_witness :
  valid_buffer sample /\ valid_key 123 /\ valid_key 124 /\
  ("math" = "math" \/ "math" = "both") /\
  elem_at sample 0 0 0 = Some 1 /\
  (decrypt_array (encrypt_array sample 123 "math") 124 "math" = sample
   <-> 124 = 123).
Proof.
  assert (HB : valid_buffer sample) by uint8_buffer.
  assert (Hk : valid_key 123) by (unfold valid_key; lia).
  assert (Hk' : valid_key 124) by (unfold valid_key; lia).
  assert (Hm : "math" = "math" \/ "math" = "both") by (left; reflexivity).
  assert (Hv : elem_at sample 0 0 0 = Some 1) by reflexivity.
  split; [exact HB |]. split; [exact Hk |]. split; [exact Hk' |].
  split; [exact Hm |]. split; [exact Hv |].
  exact (decrypt_needs_the_key sample 123 124 "math" 0 0 0 1 HB Hk Hk' Hm Hv).
Defined.

(** X10 (mode both from the other two): for a key in [0,255], encrypting
    in mode both is encrypting in mode math and then in mode swap, and
    also in mode swap and then in mode math. *)
Theorem mode_both_composes (B : buffer) (k : Z) :
  valid_key k ->
  encrypt_array B k "both"
  = encrypt_array (encrypt_array B k "math") k "swap" /\
  encrypt_array B k "both"
  = encrypt_array (encrypt_array B k "swap") k "math".
Proof.
  intros _.
  rewrite !encrypt_array_both, !encrypt_array_swap, !encrypt_array_math.
  split; [reflexivity |]. symmetry. apply xor_swap_commute.
Qed.

Lemma mode_both_composes_witness :
  valid_key 77 /\
  encrypt_array sample 77 "both"
  = encrypt_array (encrypt_array sample 77 "math") 77 "swap" /\
  encrypt_array sample 77 "both"
  = encrypt_array (encrypt_array sample 77 "swap") 77 "math".
Proof.
  assert (Hk : valid_key 77) by (unfold valid_key; lia).
  split; [exact Hk |].
  exact (mode_both_composes sample 77 Hk).
Defined.

(** X11 (other mode strings): with a mode other than swap, math and both,
    encrypt_array and decrypt_array raise nothing and return the buffer
    they were given. *)
Theorem unknown_mode_is_identity (B : buffer) (k : Z) (m : string) :
  m <> "swap" -> m <> "math" -> m <> "both" ->
  encrypt_array B k m = B /\ decrypt_array B k m = B.
Proof.
  intros Hs Hx Hb. unfold encrypt_array, decrypt_array.
  rewrite !str_in_not by (repeat constructor; assumption).
  split; reflexivity.
Qed.

Lemma unknown_mode_is_identity_witness :
  "flip" <> "swap" /\ "flip" <> "math" /\ "flip" <> "both" /\
  encrypt_array sample 9 "flip" = sample /\
  decrypt_array sample 9 "flip" = sample.
Proof.
  assert (Hs : "flip" <> "swap") by discriminate.
  assert (Hx : "flip" <> "math") by discriminate.
  assert (Hb : "flip" <> "both") by discriminate.
  split; [exact Hs |]. split; [exact Hx |]. split; [exact Hb |].
  exact (unknown_mode_is_identity sample 9 "flip" Hs Hx Hb).
Defined.

(** * Further properties of the command surface *)

Section ArgumentParsing.

Variable int_of_str : string -> option Z.

Lemma str_in_true (s : string) (l : list string) :
  str_in s l = true -> In s l.
Proof.
  induction l as [| x l IH]; [discriminate |].
  cbn. intros H. apply orb_true_iff in H as [H | H].
  - left. symmetry. now apply String.eqb_eq.
  - right. now apply IH.
Qed.

Lemma str_in_operation (s : string) :
  str_in s ["encrypt"; "decrypt"] = true -> is_operation s.
Proof.
  intros H. apply str_in_true in H. unfold is_operation. cbn in H. intuition congruence.
Qed.

Lemma str_in_mode (s : string) :
  str_in s ["swap"; "math"; "both"] = true -> valid_mode s.
Proof.
  intros H. apply str_in_true in H. unfold valid_mode. cbn in H. intuition congruence.
Qed.

Lemma ps_init_ok : pstate_ok ps_init.
Proof.
  unfold pstate_ok, ps_init, valid_key, valid_mode. cbn.
  repeat split; try lia. right; right; reflexivity.
Qed.

(** The loop keeps the key in range, the mode among the three choices
    and the first positional argument among the two operations. *)
Lemma parse_loop_ok (toks : list token) :
  forall st st', pstate_ok st ->
  parse_loop int_of_str toks st = inr st' -> pstate_ok st'.
Proof.
  induction toks as [| t rest IH]; intros st st' Hok Hp.
  - cbn in Hp. now injection Hp as <-.
  - destruct Hok as (Hk & Hm & Hop).
    destruct t as [s | v | v |]; cbn -[str_in] in Hp; [| | | discriminate].
    + destruct (ps_pos st) as [| p0 [| p1 [| p2 ps]]] eqn:Epos.
      * destruct (str_in s ["encrypt"; "decrypt"]) eqn:Es; [| discriminate].
        apply (IH _ _) in Hp; [exact Hp |].
        unfold pstate_ok; cbn. auto using str_in_operation.
      * apply (IH _ _) in Hp; [exact Hp |]. unfold pstate_ok; cbn. auto.
      * apply (IH _ _) in Hp; [exact Hp |]. unfold pstate_ok; cbn. auto.
      * apply (IH _ _) in Hp; [exact Hp |]. unfold pstate_ok; cbn. auto.
    + destruct (positive_int int_of_str v) as [msg | k] eqn:Ev; [discriminate |].
      apply (IH _ _) in Hp; [exact Hp |].
      apply positive_int_accepts in Ev as [_ Hrange].
      unfold pstate_ok; cbn. auto.
    + destruct (str_in v ["swap"; "math"; "both"]) eqn:Ev; [| discriminate].
      apply (IH _ _) in Hp; [exact Hp |].
      unfold pstate_ok; cbn. auto using str_in_mode.
Qed.

Lemma parse_args_ok (toks : list token) (args : namespace) :
  parse_args int_of_str toks = inr args -> namespace_ok args.
Proof.
  unfold parse_args.
  destruct (parse_loop int_of_str toks ps_init) as [e | st] eqn:Hst; [discriminate |].
  pose proof (parse_loop_ok toks ps_init st ps_init_ok Hst) as (Hk & Hm & Hop).
  destruct (ps_pos st) as [| op [| inp [| out [| ? ?]]]]; try discriminate.
  destruct (ps_extras st); [| discriminate].
  intros [= <-]. unfold namespace_ok; cbn. auto.
Qed.

(** A refused choice ends the parser: with a usage error when no help
    option comes before it. *)
Lemma parse_loop_refused_mode (pre post : list token) (value : string) :
  str_in value ["swap"; "math"; "both"] = false ->
  forall st, exists x,
    parse_loop int_of_str (pre ++ ModeOpt value :: post) st = inl x /\
    (~ In HelpOpt pre -> exists e, x = UsageExit e).
Proof.
  intros Hbad st. rewrite parse_loop_app.
  destruct (parse_loop int_of_str pre st) as [[e |] | st'] eqn:Hpre.
  - exists (UsageExit e). eauto.
  - exists HelpExit. split; [reflexivity |].
    intros Hno. exfalso. apply Hno. exact (parse_loop_help int_of_str pre st Hpre).
  - cbn -[str_in]. rewrite Hbad. eauto.
Qed.

(** Options do not fill the positional arguments. *)
Lemma parse_loop_keeps_pos (toks : list token) :
  (forall p, ~ In (Positional p) toks) ->
  forall st st', parse_loop int_of_str toks st = inr st' ->
  ps_pos st' = ps_pos st.
Proof.
  induction toks as [| t rest IH]; intros Hno st st' Hp.
  - cbn in Hp. now injection Hp as <-.
  - assert (Hrest : forall p, ~ In (Positional p) rest)
      by (intros p Hin; apply (Hno p); now right).
    specialize (IH Hrest). destruct t as [p | v | v |]; cbn -[str_in] in Hp.
    + exfalso. apply (Hno p). now left.
    + destruct (positive_int int_of_str v); [discriminate |].
      apply IH in Hp. exact Hp.
    + destruct (str_in v ["swap"; "math"; "both"]); [| discriminate].
      apply IH in Hp. exact Hp.
    + discriminate.
Qed.

Lemma parse_loop_refused_operation (pre post : list token) (s : string) :
  (forall p, ~ In (Positional p) pre) ->
  str_in s ["encrypt"; "decrypt"] = false ->
  forall st, ps_pos st = [] ->
  exists x,
    parse_loop int_of_str (pre ++ Positional s :: post) st = inl x /\
    (~ In HelpOpt pre -> exists e, x = UsageExit e).
Proof.
  intros Hpre Hbad st Hpos. rewrite parse_loop_app.
  destruct (parse_loop int_of_str pre st) as [[e |] | st'] eqn:Hl.
  - exists (UsageExit e). eauto.
  - exists HelpExit. split; [reflexivity |].
    intros Hno. exfalso. apply Hno. exact (parse_loop_help int_of_str pre st Hl).
  - cbn -[str_in].
    rewrite (parse_loop_keeps_pos pre Hpre st st' Hl), Hpos, Hbad. eauto.
Qed.

Lemma parse_loop_keeps_mode (toks : list token) :
  (forall v, ~ In (ModeOpt v) toks) ->
  forall st st', parse_loop int_of_str toks st = inr st' ->
  ps_mode st' = ps_mode st.
Proof.
  induction toks as [| t rest IH]; intros Hno st st' Hp.
  - cbn in Hp. now injection Hp as <-.
  - assert (Hrest : forall v, ~ In (ModeOpt v) rest)
      by (intros v Hv; apply (Hno v); now right).
    specialize (IH Hrest). destruct t as [s | v | v |]; cbn -[str_in] in Hp.
    + destruct (ps_pos st) as [| ? [| ? [| ? ?]]];
        try (apply IH in Hp; exact Hp).
      destruct (str_in s ["encrypt"; "decrypt"]); [| discriminate].
      apply IH in Hp. exact Hp.
    + destruct (positive_int int_of_str v); [discriminate |].
      apply IH in Hp. exact Hp.
    + exfalso. apply (Hno v). now left.
    + discriminate.
Qed.

Lemma parse_args_mode (toks : list token) (args : namespace) :
  parse_args int_of_str toks = inr args ->
  exists st, parse_loop int_of_str toks ps_init = inr st /\
             ns_mode args = ps_mode st.
Proof.
  unfold parse_args.
  destruct (parse_loop int_of_str toks ps_init) as [e | st]; [discriminate |].
  intros Hp. exists st. split; [reflexivity |].
  destruct (ps_pos st) as [| ? [| ? [| ? [| ? ?]]]]; try discriminate.
  destruct (ps_extras st); [| discriminate].
  now injection Hp as <-.
Qed.

(** X12 (what positive_int returns): positive_int returns k exactly when
    int(value) is k and k is in [0,255]; in every other case it raises
    ArgumentTypeError with its one message, whether int failed or the
    range test did. *)
Theorem positive_int_spec (value : string) :
  (forall k, positive_int int_of_str value = inr k
             <-> int_of_str value = Some k /\ 0 <= k <= 255) /\
  ((exists k, positive_int int_of_str value = inr k) \/
   positive_int int_of_str value = inl key_message).
Proof.
  split; [intros k; apply positive_int_accepts |].
  unfold positive_int. destruct (positive_int_try int_of_str value); eauto.
Qed.

(** X13 (the namespace is valid): when parse_args returns, the key of the
    namespace is in [0,255], its mode is swap, math or both, and its
    operation is encrypt or decrypt. *)
Theorem parse_args_namespace_valid (toks : list token) (args : namespace) :
  parse_args int_of_str toks = inr args ->
  0 <= ns_key args <= 255 /\
  (ns_mode args = "swap" \/ ns_mode args = "math" \/ ns_mode args = "both") /\
  (ns_operation args = "encrypt" \/ ns_operation args = "decrypt").
Proof.
  intros Hp. exact (parse_args_ok toks args Hp).
Qed.

(** X16 (default mode): without --mode on the command line, the mode of
    the namespace is both. *)
Theorem mode_defaults_to_both (toks : list token) (args : namespace) :
  (forall v, ~ In (ModeOpt v) toks) ->
  parse_args int_of_str toks = inr args ->
  ns_mode args = "both".
Proof.
  intros Hno Hargs.
  destruct (parse_args_mode toks args Hargs) as (st & Hst & ->).
  exact (parse_loop_keeps_mode toks Hno ps_init st Hst).
Qed.

End ArgumentParsing.

Section Runs.

Variable int_of_str : string -> option Z.
Variable decode : list Z -> option buffer.
Variable save : buffer -> string -> filesystem -> bool * filesystem.

Lemma image_open_isfile (fs : filesystem) (path : string) (arr : buffer) :
  image_open decode fs path = Some arr -> isfile fs path = true.
Proof.
  unfold image_open, isfile.
  destruct (fs !! path) as [[content |] |]; (reflexivity || discriminate).
Qed.

(** For the modes of the command line the two directions compute the
    same array. *)
Lemma decrypt_array_as_encrypt (arr : buffer) (k : Z) (m : string) :
  valid_mode m -> decrypt_array arr k m = encrypt_array arr k m.
Proof.
  intros Hm. by_mode Hm; try reflexivity. apply xor_swap_commute.
Qed.

(** [process_image] on one of the two operations, the image opened. *)
Lemma process_image_opened (fs : filesystem) (inp out : string) (k : Z)
    (m op : string) (arr : buffer) :
  is_operation op ->
  image_open decode fs inp = Some arr ->
  process_image decode save fs inp out k m op
  = (let result := if String.eqb op "encrypt" then encrypt_array arr k m
                   else decrypt_array arr k m in
     match save result out fs with
     | (false, fs') => (Raised EncodeError, fs', [FsOpen inp; FsSave out])
     | (true, fs') =>
         (Returned, fs',
          [FsOpen inp; FsSave out;
           Stdout (done_word op ++ " image saved to: " ++ out)])
     end).
Proof.
  intros [-> | ->] Hopen; unfold process_image; rewrite Hopen; reflexivity.
Qed.

(** X14 (the operation check of process_image never fires under main):
    main never ends with the ValueError that process_image raises for an
    operation other than encrypt and decrypt. *)
Theorem main_operation_always_known (toks : list token) (fs : filesystem) :
  (main int_of_str decode save toks fs).1.1
  <> Raised (ValueError "operation must be 'encrypt' or 'decrypt'").
Proof.
  unfold main.
  destruct (parse_args int_of_str toks) as [[e |] | args] eqn:Hargs;
    [discriminate | discriminate |].
  destruct (isfile fs (ns_input args)); cbn [negb]; [| discriminate].
  destruct (parse_args_ok int_of_str toks args Hargs) as (_ & _ & Hop).
  destruct (image_open decode fs (ns_input args)) as [arr |] eqn:Hopen.
  - rewrite (process_image_opened fs _ (ns_output args) (ns_key args)
               (ns_mode args) _ arr Hop Hopen).
    cbv zeta. destruct (save _ (ns_output args) fs) as [[|] fs']; discriminate.
  - unfold process_image. rewrite Hopen. discriminate.
Qed.

(** X15 (choices): a --mode argument other than swap, math and both, or
    a first positional argument other than encrypt and decrypt, ends the
    program with no access to the file system, which is left as it was:
    with a usage error (status 2) when no -h/--help comes before it, and
    with the help message and status 0 when the parser meets a help
    option first. *)
Theorem invalid_choice_rejected :
  (forall pre post fs value,
     value <> "swap" -> value <> "math" -> value <> "both" ->
     (~ In HelpOpt pre ->
      exists e, main int_of_str decode save (pre ++ ModeOpt value :: post) fs
                = (Exited 2, fs, [Stderr e])) /\
     ((exists e, main int_of_str decode save (pre ++ ModeOpt value :: post) fs
                 = (Exited 2, fs, [Stderr e])) \/
      main int_of_str decode save (pre ++ ModeOpt value :: post) fs
      = (Exited 0, fs, [StdoutHelp]))) /\
  (forall pre post fs s,
     (forall p, ~ In (Positional p) pre) ->
     s <> "encrypt" -> s <> "decrypt" ->
     (~ In HelpOpt pre ->
      exists e, main int_of_str decode save (pre ++ Positional s :: post) fs
                = (Exited 2, fs, [Stderr e])) /\
     ((exists e, main int_of_str decode save (pre ++ Positional s :: post) fs
                 = (Exited 2, fs, [Stderr e])) \/
      main int_of_str decode save (pre ++ Positional s :: post) fs
      = (Exited 0, fs, [StdoutHelp]))).
Proof.
  split.
  - intros pre post fs value Hs Hm Hb.
    assert (Hbad : str_in value ["swap"; "math"; "both"] = false)
      by (apply str_in_not; repeat constructor; assumption).
    destruct (parse_loop_refused_mode int_of_str pre post value Hbad ps_init)
      as (x & Hx & Hu).
    rewrite (main_parser_exit int_of_str decode save _ fs _ Hx). split.
    + intros Hno. destruct (Hu Hno) as [e ->]. eauto.
    + destruct x as [e |]; eauto.
  - intros pre post fs s Hpre He Hd.
    assert (Hbad : str_in s ["encrypt"; "decrypt"] = false)
      by (apply str_in_not; repeat constructor; assumption).
    destruct (parse_loop_refused_operation int_of_str pre post s Hpre Hbad
                ps_init eq_refl) as (x & Hx & Hu).
    rewrite (main_parser_exit int_of_str decode save _ fs _ Hx). split.
    + intros Hno. destruct (Hu Hno) as [e ->]. eauto.
    + destruct x as [e |]; eauto.
Qed.

(** X17 (input that is no image): when the input path names a regular
    file that the image library cannot decode, main raises from the
    opening of the image; nothing is saved and the file system is left as
    it was. *)
Theorem undecodable_input (toks : list token) (fs : filesystem)
    (args : namespace) (content : list Z) :
  parse_args int_of_str toks = inr args ->
  fs !! ns_input args = Some (RegularFile content) ->
  decode content = None ->
  main int_of_str decode save toks fs
  = (Raised DecodeError, fs,
     [FsIsFile (ns_input args); FsOpen (ns_input args)]).
Proof.
  intros Hargs Hfile Hdec. unfold main, process_image, image_open, isfile.
  now rewrite Hargs, Hfile, Hdec.
Qed.

(** X18 (round trip through files): with a key in [0,255], a mode among
    the three and an image library that reads back the array it saved,
    process_image with operation encrypt followed by process_image with
    operation decrypt on its output hands to the library, for the final
    file, the array decoded from the first input. *)
Theorem process_image_roundtrip (fs fs1 : filesystem) (inp mid out : string)
    (k : Z) (m : string) (arr : buffer) :
  valid_buffer arr -> valid_key k -> valid_mode m ->
  image_open decode fs inp = Some arr ->
  save (encrypt_array arr k m) mid fs = (true, fs1) ->
  image_open decode fs1 mid = Some (encrypt_array arr k m) ->
  process_image decode save fs inp mid k m "encrypt"
  = (Returned, fs1,
     [FsOpen inp; FsSave mid; Stdout ("Encrypted image saved to: " ++ mid)]) /\
  process_image decode save fs1 mid out k m "decrypt"
  = match save arr out fs1 with
    | (false, fs2) => (Raised EncodeError, fs2, [FsOpen mid; FsSave out])
    | (true, fs2) =>
        (Returned, fs2,
         [FsOpen mid; FsSave out; Stdout ("Decrypted image saved to: " ++ out)])
    end.
Proof.
  intros Harr Hk Hm Hopen Hsave Hback. split.
  - rewrite (process_image_opened fs inp mid k m "encrypt" arr
               (or_introl eq_refl) Hopen).
    cbn [String.eqb Ascii.eqb Bool.eqb]. cbv zeta. change ("encrypt" =? "encrypt")%string with true.
    cbv iota. now rewrite Hsave.
  - rewrite (process_image_opened fs1 mid out k m "decrypt" _
               (or_intror eq_refl) Hback).
    change ("decrypt" =? "encrypt")%string with false. cbv zeta iota.
    assert (Hrt : decrypt_array (encrypt_array arr k m) k m = arr).
    { rewrite (decrypt_array_as_encrypt _ k m Hm).
      destruct Hm as [-> | [-> | ->]];
        rewrite ?encrypt_array_swap, ?encrypt_array_math, ?encrypt_array_both.
      - apply swap_pixels_twice.
      - now apply xor_pixels_twice.
      - rewrite (xor_swap_commute (xor_pixels arr k) k), swap_pixels_twice.
        now apply xor_pixels_twice. }
    rewrite Hrt. reflexivity.
Qed.

(** X19 (a successful run): when the arguments parse, the input decodes
    to an array and the library saves, main returns after one test of the
    input path, one opening and one save on the output path, having
    printed the confirmation with Encrypted or Decrypted and the output
    path; the array saved is encrypt_array of the decoded array with the
    key and mode of the namespace, whichever of the two operations was
    given. *)
Theorem main_success (toks : list token) (fs fs' : filesystem)
    (args : namespace) (arr : buffer) :
  parse_args int_of_str toks = inr args ->
  image_open decode fs (ns_input args) = Some arr ->
  save (encrypt_array arr (ns_key args) (ns_mode args)) (ns_output args) fs
  = (true, fs') ->
  main int_of_str decode save toks fs
  = (Returned, fs',
     [FsIsFile (ns_input args); FsOpen (ns_input args);
      FsSave (ns_output args);
      Stdout (done_word (ns_operation args) ++ " image saved to: "
              ++ ns_output args)]).
Proof.
  intros Hargs Hopen Hsave.
  destruct (parse_args_ok int_of_str toks args Hargs) as (_ & Hm & Hop).
  unfold main. rewrite Hargs, (image_open_isfile fs _ arr Hopen). cbn [negb].
  rewrite (process_image_opened fs _ (ns_output args) (ns_key args)
             (ns_mode args) _ arr Hop Hopen).
  cbv zeta. rewrite (decrypt_array_as_encrypt arr _ _ Hm).
  destruct (ns_operation args =? "encrypt")%string; now rewrite Hsave.
Qed.


(** X21 (the operation changes only the message): for a key in [0,255]
    and a mode among the three, process_image with operation encrypt and
    with operation decrypt end the same way, leave the same file system
    and make the same accesses to the file system in the same order:
    either both fail with the same trace, or both return after the
    opening of the input and the save on the output, and differ by the
    word Encrypted or Decrypted of the line printed last. *)
Theorem operation_changes_only_message (fs : filesystem) (inp out : string)
    (k : Z) (m : string) :
  valid_key k -> valid_mode m ->
  (exists o fs' tr,
     o <> Returned /\
     process_image decode save fs inp out k m "encrypt" = (o, fs', tr) /\
     process_image decode save fs inp out k m "decrypt" = (o, fs', tr)) \/
  (exists fs',
     process_image decode save fs inp out k m "encrypt"
     = (Returned, fs',
        [FsOpen inp; FsSave out; Stdout ("Encrypted image saved to: " ++ out)]) /\
     process_image decode save fs inp out k m "decrypt"
     = (Returned, fs',
        [FsOpen inp; FsSave out; Stdout ("Decrypted image saved to: " ++ out)])).
Proof.
  intros _ Hm. unfold process_image.
  destruct (image_open decode fs inp) as [arr |].
  - change ("encrypt" =? "encrypt")%string with true.
    change ("decrypt" =? "encrypt")%string with false.
    change ("decrypt" =? "decrypt")%string with true.
    cbv iota zeta. rewrite (decrypt_array_as_encrypt arr k m Hm).
    destruct (save (encrypt_array arr k m) out fs) as [[|] fs'].
    + right. exists fs'. split; reflexivity.
    + left. exists (Raised EncodeError), fs', [FsOpen inp; FsSave out].
      split; [discriminate |]. split; reflexivity.
  - left. exists (Raised DecodeError), fs, [FsOpen inp].
    split; [discriminate |]. split; reflexivity.
Qed.

End Runs.

Lemma parse_args_namespace_valid_witness :
  parse_args int_ascii cmdline_decrypt_raw = inr args_decrypt_raw /\
  0 <= ns_key args_decrypt_raw <= 255 /\
  (ns_mode args_decrypt_raw = "swap" \/ ns_mode args_decrypt_raw = "math" \/
   ns_mode args_decrypt_raw = "both") /\
  (ns_operation args_decrypt_raw = "encrypt" \/
   ns_operation args_decrypt_raw = "decrypt").
Proof.
  split; [reflexivity |].
  exact (parse_args_namespace_valid int_ascii cmdline_decrypt_raw
           args_decrypt_raw eq_refl).
Defined.

Lemma mode_defaults_to_both_witness :
  (forall v, ~ In (ModeOpt v) cmdline_decrypt_raw) /\
  parse_args int_ascii cmdline_decrypt_raw = inr args_decrypt_raw /\
  ns_mode args_decrypt_raw = "both".
Proof.
  assert (Hno : forall v, ~ In (ModeOpt v) cmdline_decrypt_raw)
    by (intros v [H | [H | [H | [H | []]]]]; discriminate H).
  split; [exact Hno |]. split; [reflexivity |].
  exact (mode_defaults_to_both int_ascii cmdline_decrypt_raw args_decrypt_raw
           Hno eq_refl).
Defined.

Lemma invalid_choice_rejected_witness :
  ("flip" <> "swap" /\ "flip" <> "math" /\ "flip" <> "both" /\
   ~ In HelpOpt [Positional "encrypt"; Positional "in.png"] /\
   exists e, main int_ascii raw_decode raw_save
               ([Positional "encrypt"; Positional "in.png"]
                  ++ ModeOpt "flip" :: [Positional "out.png"])
               fs_input_only
             = (Exited 2, fs_input_only, [Stderr e])) /\
  ((forall p, ~ In (Positional p) [KeyOpt "5"]) /\
   "rotate" <> "encrypt" /\ "rotate" <> "decrypt" /\
   ~ In HelpOpt [KeyOpt "5"] /\
   exists e, main int_ascii raw_decode raw_save
               ([KeyOpt "5"] ++ Positional "rotate"
                  :: [Positional "in.png"; Positional "out.png"])
               fs_input_only
             = (Exited 2, fs_input_only, [Stderr e])).
Proof.
  assert (Hs : "flip" <> "swap") by discriminate.
  assert (Hm : "flip" <> "math") by discriminate.
  assert (Hb : "flip" <> "both") by discriminate.
  assert (Hnh : ~ In HelpOpt [Positional "encrypt"; Positional "in.png"])
    by (intros [H | [H | []]]; discriminate H).
  assert (Hpre : forall p, ~ In (Positional p) [KeyOpt "5"])
    by (intros p [H | []]; discriminate H).
  assert (He : "rotate" <> "encrypt") by discriminate.
  assert (Hd : "rotate" <> "decrypt") by discriminate.
  assert (Hnh' : ~ In HelpOpt [KeyOpt "5"])
    by (intros [H | []]; discriminate H).
  split.
  - split; [exact Hs |]. split; [exact Hm |]. split; [exact Hb |].
    split; [exact Hnh |].
    exact (proj1 (proj1 (invalid_choice_rejected int_ascii raw_decode raw_save)
                    [Positional "encrypt"; Positional "in.png"]
                    [Positional "out.png"] fs_input_only "flip" Hs Hm Hb) Hnh).
  - split; [exact Hpre |]. split; [exact He |]. split; [exact Hd |].
    split; [exact Hnh' |].
    exact (proj1 (proj2 (invalid_choice_rejected int_ascii raw_decode raw_save)
                    [KeyOpt "5"] [Positional "in.png"; Positional "out.png"]
                    fs_input_only "rotate" Hpre He Hd) Hnh').
Defined.

Lemma undecodable_input_witness :
  parse_args int_ascii cmdline_decrypt_raw = inr args_decrypt_raw /\
  fs_not_an_image !! ns_input args_decrypt_raw = Some (RegularFile [1; 2]) /\
  raw_decode [1; 2] = None /\
  main int_ascii raw_decode raw_save cmdline_decrypt_raw fs_not_an_image
  = (Raised DecodeError, fs_not_an_image,
     [FsIsFile (ns_input args_decrypt_raw); FsOpen (ns_input args_decrypt_raw)]).
Proof.
  assert (Hfile : fs_not_an_image !! ns_input args_decrypt_raw
                  = Some (RegularFile [1; 2])) by (vm_compute; reflexivity).
  split; [reflexivity |]. split; [exact Hfile |]. split; [reflexivity |].
  exact (undecodable_input int_ascii raw_decode raw_save cmdline_decrypt_raw
           fs_not_an_image args_decrypt_raw [1; 2] eq_refl Hfile eq_refl).
Defined.

Lemma process_image_roundtrip_witness :
  valid_buffer arr_input_only /\ valid_key 10 /\ valid_mode "both" /\
  image_open raw_decode fs_input_only "in.raw" = Some arr_input_only /\
  raw_save (encrypt_array arr_input_only 10 "both") "mid.raw" fs_input_only
  = (true, fs_with_mid) /\
  image_open raw_decode fs_with_mid "mid.raw"
  = Some (encrypt_array arr_input_only 10 "both") /\
  process_image raw_decode raw_save fs_input_only "in.raw" "mid.raw" 10 "both"
    "encrypt"
  = (Returned, fs_with_mid,
     [FsOpen "in.raw"; FsSave "mid.raw";
      Stdout ("Encrypted image saved to: " ++ "mid.raw")]) /\
  process_image raw_decode raw_save fs_with_mid "mid.raw" "out.raw" 10 "both"
    "decrypt"
  = match raw_save arr_input_only "out.raw" fs_with_mid with
    | (false, fs2) => (Raised EncodeError, fs2, [FsOpen "mid.raw"; FsSave "out.raw"])
    | (true, fs2) =>
        (Returned, fs2,
         [FsOpen "mid.raw"; FsSave "out.raw";
          Stdout ("Decrypted image saved to: " ++ "out.raw")])
    end.
Proof.
  assert (Harr : valid_buffer arr_input_only) by uint8_buffer.
  assert (Hk : valid_key 10) by (unfold valid_key; lia).
  assert (Hm : valid_mode "both") by (right; right; reflexivity).
  assert (Hopen : image_open raw_decode fs_input_only "in.raw"
                  = Some arr_input_only) by (vm_compute; reflexivity).
  assert (Hsave : raw_save (encrypt_array arr_input_only 10 "both") "mid.raw"
                    fs_input_only = (true, fs_with_mid)) by reflexivity.
  assert (Hback : image_open raw_decode fs_with_mid "mid.raw"
                  = Some (encrypt_array arr_input_only 10 "both"))
    by (vm_compute; reflexivity).
  split; [exact Harr |]. split; [exact Hk |]. split; [exact Hm |].
  split; [exact Hopen |]. split; [exact Hsave |]. split; [exact Hback |].
  exact (process_image_roundtrip raw_decode raw_save fs_input_only fs_with_mid
           "in.raw" "mid.raw" "out.raw" 10 "both" arr_input_only
           Harr Hk Hm Hopen Hsave Hback).
Defined.

Lemma main_success_witness :
  parse_args int_ascii cmdline_decrypt_raw = inr args_decrypt_raw /\
  image_open raw_decode fs_input_only (ns_input args_decrypt_raw)
  = Some arr_input_only /\
  raw_save (encrypt_array arr_input_only (ns_key args_decrypt_raw)
              (ns_mode args_decrypt_raw))
    (ns_output args_decrypt_raw) fs_input_only
  = (true, <["out.raw" := RegularFile [6; 5; 4; 7; 7; 7]]> fs_input_only) /\
  main int_ascii raw_decode raw_save cmdline_decrypt_raw fs_input_only
  = (Returned, <["out.raw" := RegularFile [6; 5; 4; 7; 7; 7]]> fs_input_only,
     [FsIsFile (ns_input args_decrypt_raw); FsOpen (ns_input args_decrypt_raw);
      FsSave (ns_output args_decrypt_raw);
      Stdout (done_word (ns_operation args_decrypt_raw) ++ " image saved to: "
              ++ ns_output args_decrypt_raw)]).
Proof.
  assert (Hopen : image_open raw_decode fs_input_only (ns_input args_decrypt_raw)
                  = Some arr_input_only) by (vm_compute; reflexivity).
  assert (Hsave : raw_save (encrypt_array arr_input_only (ns_key args_decrypt_raw)
                              (ns_mode args_decrypt_raw))
                    (ns_output args_decrypt_raw) fs_input_only
                  = (true, <["out.raw" := RegularFile [6; 5; 4; 7; 7; 7]]> fs_input_only))
    by reflexivity.
  split; [reflexivity |]. split; [exact Hopen |]. split; [exact Hsave |].
  exact (main_success int_ascii raw_decode raw_save cmdline_decrypt_raw
           fs_input_only _ args_decrypt_raw arr_input_only eq_refl Hopen Hsave).
Defined.

Lemma operation_changes_only_message_witness :
  valid_key 10 /\ valid_mode "both" /\
  ((exists o fs' tr,
      o <> Returned /\
      process_image raw_decode raw_save fs_input_only "in.raw" "out.raw" 10
        "both" "encrypt" = (o, fs', tr) /\
      process_image raw_decode raw_save fs_input_only "in.raw" "out.raw" 10
        "both" "decrypt" = (o, fs', tr)) \/
   (exists fs',
      process_image raw_decode raw_save fs_input_only "in.raw" "out.raw" 10
        "both" "encrypt"
      = (Returned, fs',
         [FsOpen "in.raw"; FsSave "out.raw";
          Stdout ("Encrypted image saved to: " ++ "out.raw")]) /\
      process_image raw_decode raw_save fs_input_only "in.raw" "out.raw" 10
        "both" "decrypt"
      = (Returned, fs',
         [FsOpen "in.raw"; FsSave "out.raw";
          Stdout ("Decrypted image saved to: " ++ "out.raw")]))).
Proof.
  assert (Hk : valid_key 10) by (unfold valid_key; lia).
  assert (Hm : valid_mode "both") by (right; right; reflexivity).
  split; [exact Hk |]. split; [exact Hm |].
  exact (operation_changes_only_message raw_decode raw_save fs_input_only
           "in.raw" "out.raw" 10 "both" Hk Hm).
Defined.
